(** * Resource provider registrar (src/resource_provider/registrar.cpp)

    A shallow embedding of the registry operations and of the
    versioned-store registrar actor, followed by the properties of the
    specification that concern them. *)

From stdpp Require Import base option list gmap strings.

(** ** Data model *)

(** [Try<T>] of stout: an error message or a value. *)
Inductive Try (A : Type) : Type :=
| Error (msg : string)
| Value (a : A).
Arguments Error {A} msg.
Arguments Value {A} a.

Definition isError {A} (t : Try A) : bool :=
  match t with Error _ => true | Value _ => false end.

(** Modelled from the spec: the protobuf messages [ResourceProviderID],
    [ResourceProvider] and [Registry] are declared outside
    registrar.cpp.  An identity is a string value compared by
    [operator==]; a record holds its identity and metadata the registrar
    never inspects (empty in a default-constructed record); a registry
    is the ordered collection [resource_providers]. *)
Record ResourceProviderID : Type := { value : string }.

#[global] Instance ResourceProviderID_eq_dec : EqDecision ResourceProviderID.
Proof. solve_decision. Defined.

#[global] Instance ResourceProviderID_countable : Countable ResourceProviderID.
Proof.
  refine (inj_countable' value Build_ResourceProviderID _).
  intros []; reflexivity.
Defined.

Record ResourceProvider : Type := {
  id : ResourceProviderID;
  metadata : string
}.

Record Registry : Type := {
  resource_providers : list ResourceProvider
}.

(** [registry->add_resource_providers()->CopyFrom(rp)]: append at the end. *)
Definition add_resource_providers (registry : Registry) (rp : ResourceProvider)
  : Registry :=
  {| resource_providers := resource_providers registry ++ [rp] |}.

(** [std::find_if] over a sequence: the position of the first element
    satisfying the predicate, or the length of the sequence ([end()]). *)
Fixpoint find_if {A} (p : A -> bool) (l : list A) : nat :=
  match l with
  | [] => 0
  | x :: l' => if p x then 0 else S (find_if p l')
  end.

(** [registry->mutable_resource_providers()->erase(pos)]. *)
Definition erase (registry : Registry) (pos : nat) : Registry :=
  {| resource_providers := delete pos (resource_providers registry) |}.

(** The identities held by a registry, in record order and as a set. *)
Definition ids (registry : Registry) : list ResourceProviderID :=
  id <$> resource_providers registry.

Definition id_set (registry : Registry) : gset ResourceProviderID :=
  list_to_set (ids registry).

(** ** Concrete operations *)

Module AdmitResourceProvider.

Definition perform (this_id : ResourceProviderID) (registry : Registry)
  : Try bool * Registry :=
  if decide (find_if (fun resourceProvider =>
                        bool_decide (id resourceProvider = this_id))
                     (resource_providers registry)
             ≠ length (resource_providers registry))
  then (Error "Resource provider already admitted", registry)
  else
    let resourceProvider := {| id := this_id; metadata := "" |} in
    (Value true, add_resource_providers registry resourceProvider).

End AdmitResourceProvider.

Module RemoveResourceProvider.

Definition perform (this_id : ResourceProviderID) (registry : Registry)
  : Try bool * Registry :=
  let pos := find_if (fun resourceProvider =>
                        bool_decide (id resourceProvider = this_id))
                     (resource_providers registry) in
  if decide (pos = length (resource_providers registry))
  then (Error "Attempted to remove an unknown resource provider", registry)
  else (Value true, erase registry pos).

End RemoveResourceProvider.

(** The dynamic type of a [Registrar::Operation]: the two subclasses
    defined in this file, each with its constant [id] member. *)
Inductive OperationKind : Type :=
| Admit (this_id : ResourceProviderID)
| Remove (this_id : ResourceProviderID).

(** The virtual call [perform(registry)]. *)
Definition perform (k : OperationKind) (registry : Registry)
  : Try bool * Registry :=
  match k with
  | Admit i => AdmitResourceProvider.perform i registry
  | Remove i => RemoveResourceProvider.perform i registry
  end.

(** ** Futures and promises (libprocess) *)

Inductive Future (A : Type) : Type :=
| Pending
| Ready (a : A)
| Failed (msg : string)
| Discarded.
Arguments Pending {A}.
Arguments Ready {A} a.
Arguments Failed {A} msg.
Arguments Discarded {A}.

(** [Promise<T>::set] and [Promise<T>::fail] complete the associated future
    only while it is still pending. *)
Definition Promise_set {A} (f : Future A) (a : A) : Future A :=
  match f with Pending => Ready a | _ => f end.

Definition Promise_fail {A} (f : Future A) (message : string) : Future A :=
  match f with Pending => Failed message | _ => f end.

(** Modelled from the spec: [Variable<Registry>] belongs to the state
    library. It is the opaque handle pairing a registry snapshot with the
    version marker the storage understands; [mutate] yields a handle with
    the same marker and a new snapshot. *)
Record Variable_Registry : Type := {
  version : nat;
  get : Registry
}.

Definition mutate (v : Variable_Registry) (r : Registry) : Variable_Registry :=
  {| version := version v; get := r |}.

(** ** Operation objects

    An [Owned<Registrar::Operation>] is a pointer: the address of the
    object together with the part of it that never changes (its dynamic
    type and [id] member).  The mutable part of the object, the [success]
    flag and the promise it derives from, lives in the object store of the
    world, so that two pointers to one object share it.  An address absent
    from the store is an object nobody has touched since its construction. *)
Record Operation : Type := {
  address : nat;
  kind : OperationKind
}.

Record OperationState : Type := {
  success : bool;
  promise : Future bool
}.

Definition constructed : OperationState :=
  {| success := false; promise := Pending |}.

Definition object (objects : gmap nat OperationState) (a : nat)
  : OperationState :=
  default constructed (objects !! a).

(** ** The actor and its surroundings *)

Record GenericRegistrarProcess : Type := {
  recovered : option (Future unit);
  registry : option Registry;
  variable : option Variable_Registry;
  error : option string;
  operations : list Operation;
  updating : bool
}.

(** The world is the actor together with what its handlers reach:
    the operation objects, the [_apply] calls chained on a pending
    [recovered] future, the arguments bound to the [_update] callback of
    the store call in flight, and the store calls issued so far (their
    arguments, oldest first). *)
Record World : Type := {
  process : GenericRegistrarProcess;
  objects : gmap nat OperationState;
  continuations : list Operation;
  in_flight : option (Registry * list Operation);
  store_calls : list Variable_Registry
}.

Definition with_process (f : GenericRegistrarProcess -> GenericRegistrarProcess)
  (w : World) : World :=
  {| process := f (process w); objects := objects w;
     continuations := continuations w; in_flight := in_flight w;
     store_calls := store_calls w |}.

Definition with_objects (f : gmap nat OperationState -> gmap nat OperationState)
  (w : World) : World :=
  {| process := process w; objects := f (objects w);
     continuations := continuations w; in_flight := in_flight w;
     store_calls := store_calls w |}.

Definition with_continuations (l : list Operation) (w : World) : World :=
  {| process := process w; objects := objects w;
     continuations := l; in_flight := in_flight w;
     store_calls := store_calls w |}.

Definition with_in_flight (c : option (Registry * list Operation))
  (w : World) : World :=
  {| process := process w; objects := objects w;
     continuations := continuations w; in_flight := c;
     store_calls := store_calls w |}.

Definition with_store_calls (l : list Variable_Registry) (w : World) : World :=
  {| process := process w; objects := objects w;
     continuations := continuations w; in_flight := in_flight w;
     store_calls := l |}.

Definition set_recovered (x : option (Future unit))
  (p : GenericRegistrarProcess) : GenericRegistrarProcess :=
  {| recovered := x; registry := registry p; variable := variable p;
     error := error p; operations := operations p; updating := updating p |}.

Definition set_registry (x : option Registry)
  (p : GenericRegistrarProcess) : GenericRegistrarProcess :=
  {| recovered := recovered p; registry := x; variable := variable p;
     error := error p; operations := operations p; updating := updating p |}.

Definition set_variable (x : option Variable_Registry)
  (p : GenericRegistrarProcess) : GenericRegistrarProcess :=
  {| recovered := recovered p; registry := registry p; variable := x;
     error := error p; operations := operations p; updating := updating p |}.

Definition set_error (x : option string)
  (p : GenericRegistrarProcess) : GenericRegistrarProcess :=
  {| recovered := recovered p; registry := registry p; variable := variable p;
     error := x; operations := operations p; updating := updating p |}.

Definition set_operations (x : list Operation)
  (p : GenericRegistrarProcess) : GenericRegistrarProcess :=
  {| recovered := recovered p; registry := registry p; variable := variable p;
     error := error p; operations := x; updating := updating p |}.

Definition set_updating (x : bool)
  (p : GenericRegistrarProcess) : GenericRegistrarProcess :=
  {| recovered := recovered p; registry := registry p; variable := variable p;
     error := error p; operations := operations p; updating := x |}.

(** ** The handler monad

    A handler transforms the world and returns a value; [None] is a failed
    [CHECK], which aborts the process. *)
Definition M (A : Type) : Type := World -> option (A * World).

Definition ret {A} (a : A) : M A := fun w => Some (a, w).

Definition bind {A B} (m : M A) (k : A -> M B) : M B :=
  fun w => match m w with
           | Some (a, w') => k a w'
           | None => None
           end.

Notation "'let*' x ':=' m 'in' k" := (bind m (fun x => k))
  (at level 10, x name, m at level 100, k at level 200).
Notation "m ';;' k" := (bind m (fun _ => k))
  (at level 100, k at level 200, right associativity).

Definition read {A} (f : GenericRegistrarProcess -> A) : M A :=
  fun w => Some (f (process w), w).

Definition write (f : GenericRegistrarProcess -> GenericRegistrarProcess)
  : M unit :=
  fun w => Some (tt, with_process f w).

Definition CHECK (b : bool) : M unit :=
  fun w => if b then Some (tt, w) else None.

Definition CHECK_NONE {A} (o : option A) : M unit :=
  fun w => match o with None => Some (tt, w) | Some _ => None end.

Definition CHECK_SOME {A} (o : option A) : M A :=
  fun w => match o with Some a => Some (a, w) | None => None end.

(** ** [Registrar::Operation] *)

(** [Try<bool> Registrar::Operation::operator()(Registry* registry)]:
    the registry argument is mutated in place, so the new registry is
    returned next to the result. *)
Definition Operation_call (operation : Operation) (registry : Registry)
  : M (Try bool * Registry) :=
  fun w =>
    let result := perform (kind operation) registry in
    let o := object (objects w) (address operation) in
    Some (result,
          with_objects
            <[address operation :=
                {| success := negb (isError (fst result));
                   promise := promise o |}]> w).

(** [bool Registrar::Operation::set()]: [Promise<bool>::set(success)]. *)
Definition Operation_set (operation : Operation) : M unit :=
  fun w =>
    let o := object (objects w) (address operation) in
    Some (tt,
          with_objects
            <[address operation :=
                {| success := success o;
                   promise := Promise_set (promise o) (success o) |}]> w).

(** [operation->fail(message)], inherited from [Promise<bool>]. *)
Definition Operation_fail (operation : Operation) (message : string)
  : M unit :=
  fun w =>
    let o := object (objects w) (address operation) in
    Some (tt,
          with_objects
            <[address operation :=
                {| success := success o;
                   promise := Promise_fail (promise o) message |}]> w).

(** ** [GenericRegistrarProcess] *)

(** The value an [apply] call hands back: a failed or discarded future,
    the future of [recovered->then(...)] while recovery is pending, or the
    future of the operation's own promise ([operations.back()->future()]). *)
Inductive ApplyFuture : Type :=
| Failure (msg : string)
| Abandoned
| Chained
| OperationFuture (operation : Operation).

(** The external call [state.store(v)]: it is recorded, and the arguments
    bound to the [_update] callback are kept until the store completes. *)
Definition state_store (v : Variable_Registry) (updatedRegistry : Registry)
  (applied : list Operation) : M unit :=
  fun w =>
    Some (tt, with_in_flight (Some (updatedRegistry, applied))
                (with_store_calls (store_calls w ++ [v]) w)).

(** The [foreach] loop of [update]; an error of an operation is logged
    and the loop goes on. *)
Fixpoint foreach_operation (ops : list Operation) (updatedRegistry : Registry)
  : M Registry :=
  match ops with
  | [] => ret updatedRegistry
  | operation :: ops' =>
      let* r := Operation_call operation updatedRegistry in
      foreach_operation ops' (snd r)
  end.

(** [void GenericRegistrarProcess::update()] *)
Definition update : M unit :=
  let* is_updating := read updating in
  CHECK (negb is_updating);;
  let* err := read error in
  CHECK_NONE err;;
  let* ops := read operations in
  match ops with
  | [] => ret tt
  | _ :: _ =>
      write (set_updating true);;
      let* reg := read registry in
      let* current := CHECK_SOME reg in
      let* updatedRegistry := foreach_operation ops current in
      let* var := read variable in
      let* v := CHECK_SOME var in
      state_store (mutate v updatedRegistry) updatedRegistry ops;;
      write (set_operations [])
  end.

(** The two [while (!applied.empty())] loops of [_update]. *)
Fixpoint fail_all (applied : list Operation) (message : string) : M unit :=
  match applied with
  | [] => ret tt
  | operation :: applied' =>
      Operation_fail operation message;;
      fail_all applied' message
  end.

Fixpoint set_all (applied : list Operation) : M unit :=
  match applied with
  | [] => ret tt
  | operation :: applied' =>
      Operation_set operation;;
      set_all applied'
  end.

(** [void GenericRegistrarProcess::_update(store, updatedRegistry, applied)] *)
Definition _update (store : Future (option Variable_Registry))
  (updatedRegistry : Registry) (applied : list Operation) : M unit :=
  write (set_updating false);;
  match store with
  | Ready (Some v) =>
      write (set_variable (Some v));;
      write (set_registry (Some updatedRegistry));;
      set_all applied;;
      let* ops := read operations in
      match ops with
      | [] => ret tt
      | _ :: _ => update
      end
  | _ =>
      let message :=
        ("Failed to update registry: " +:+
           match store with
           | Failed failure => failure
           | Discarded => "discarded"
           | _ => "version mismatch"
           end)%string in
      fail_all applied message;;
      write (set_error (Some message))
  end.

(** [Future<bool> GenericRegistrarProcess::_apply(operation)] *)
Definition _apply (operation : Operation) : M ApplyFuture :=
  let* err := read error in
  match err with
  | Some e => ret (Failure e)
  | None =>
      let* ops := read operations in
      write (set_operations (ops ++ [operation]));;
      let* is_updating := read updating in
      (if is_updating then ret tt else update);;
      ret (OperationFuture operation)
  end.

(** [Future<bool> GenericRegistrarProcess::apply(operation)].
    [recovered->then(defer(self(), &Self::_apply, operation))] runs
    [_apply] in the actor once [recovered] is ready: at once when it
    already is, when the fetch completes otherwise; a failed or discarded
    [recovered] passes its state on without running [_apply]. *)
Definition apply (operation : Operation) : M ApplyFuture :=
  let* r := read recovered in
  match r with
  | None => ret (Failure "Attempted to apply the operation before recovering")
  | Some Pending =>
      (fun w => Some (Chained,
                      with_continuations (continuations w ++ [operation]) w))
  | Some (Ready _) => _apply operation
  | Some (Failed msg) => ret (Failure msg)
  | Some Discarded => ret Abandoned
  end.

(** [Future<Nothing> GenericRegistrarProcess::recover()]: the fetch is
    issued by the first call only. *)
Definition recover : M (Future unit) :=
  let* r := read recovered in
  match r with
  | None => write (set_recovered (Some Pending));; ret Pending
  | Some f => ret f
  end.

(** The [_apply] calls chained on [recovered], run in the order in which
    they were chained. *)
Fixpoint run_continuations (ops : list Operation) : M unit :=
  match ops with
  | [] => ret tt
  | operation :: ops' => _apply operation;; run_continuations ops'
  end.

(** Completion of [state.fetch<Registry>(NAME)]: the continuation of
    [recover] installs the snapshot and the handle, which makes
    [recovered] ready and releases the chained [_apply] calls. *)
Definition fetched (recovery : Future Variable_Registry) : M unit :=
  let* r := read recovered in
  match r, recovery with
  | Some Pending, Ready v =>
      write (set_registry (Some (get v)));;
      write (set_variable (Some v));;
      write (set_recovered (Some (Ready tt)));;
      (fun w => run_continuations (continuations w) (with_continuations [] w))
  | Some Pending, Failed msg =>
      write (set_recovered (Some (Failed msg)));;
      (fun w => Some (tt, with_continuations [] w))
  | Some Pending, Discarded =>
      write (set_recovered (Some Discarded));;
      (fun w => Some (tt, with_continuations [] w))
  | _, _ => ret tt
  end.

(** Completion of the store call in flight: [onAny] runs [_update] with
    the arguments bound when the call was issued. *)
Definition stored (store : Future (option Variable_Registry)) : M unit :=
  fun w =>
    match in_flight w, store with
    | Some (updatedRegistry, applied), (Ready _ | Failed _ | Discarded) =>
        _update store updatedRegistry applied (with_in_flight None w)
    | _, _ => Some (tt, w)
    end.

(** ** Runs of the actor *)

(** What reaches the actor from outside: the calls dispatched by the
    facade and the completions of the two storage calls. *)
Inductive Event : Type :=
| EvRecover
| EvFetched (recovery : Future Variable_Registry)
| EvApply (operation : Operation)
| EvStored (store : Future (option Variable_Registry)).

Definition deliver (ev : Event) : M unit :=
  match ev with
  | EvRecover => recover;; ret tt
  | EvFetched recovery => fetched recovery
  | EvApply operation => apply operation;; ret tt
  | EvStored store => stored store
  end.

Fixpoint run (evs : list Event) : M unit :=
  match evs with
  | [] => ret tt
  | ev :: evs' => deliver ev;; run evs'
  end.

Definition initial : World :=
  {| process := {| recovered := None; registry := None; variable := None;
                   error := None; operations := []; updating := false |};
     objects := ∅; continuations := []; in_flight := None;
     store_calls := [] |}.

(** The state of the promise of an operation. *)
Definition future_of (w : World) (operation : Operation) : Future bool :=
  promise (object (objects w) (address operation)).

(** ** The replay of the specification

    The set of identities implied by a sequence of operations: an
    admission of an identity already present and a removal of an
    identity not present are rejected and contribute nothing. *)
Definition replay_step (s : gset ResourceProviderID) (k : OperationKind)
  : gset ResourceProviderID :=
  match k with
  | Admit i => if decide (i ∈ s) then s else s ∪ {[i]}
  | Remove i => if decide (i ∈ s) then s ∖ {[i]} else s
  end.

Definition replay (ks : list OperationKind) (s : gset ResourceProviderID)
  : gset ResourceProviderID :=
  foldl replay_step s ks.

(** The snapshot a batch produces from the current registry: every
    operation of the batch performed in order. *)
Definition batch (r : Registry) (ops : list Operation) : Registry :=
  foldl (fun r operation => snd (perform (kind operation) r)) r ops.

(** The operations a run hands to [_apply]: those of the [apply] calls
    dispatched once [recover] has been invoked. *)
Fixpoint submissions (invoked : bool) (evs : list Event)
  : list OperationKind :=
  match evs with
  | [] => []
  | EvRecover :: evs' => submissions true evs'
  | EvApply operation :: evs' =>
      (if invoked then [kind operation] else []) ++ submissions invoked evs'
  | _ :: evs' => submissions invoked evs'
  end.

(** ** Auxiliary notions for the properties *)

(** The predicate both operations hand to [find_if]. *)
Definition has_id (i : ResourceProviderID) (rp : ResourceProvider) : bool :=
  bool_decide (id rp = i).

(** The message [_update] builds when the store did not succeed. *)
Definition failure_message (store : Future (option Variable_Registry))
  : option string :=
  match store with
  | Failed failure => Some ("Failed to update registry: " +:+ failure)
  | Discarded => Some "Failed to update registry: discarded"
  | Ready None => Some "Failed to update registry: version mismatch"
  | _ => None
  end%string.

(** Whether [recover] has been invoked. *)
Definition invoked (w : World) : bool :=
  match recovered (process w) with Some _ => true | None => false end.

(** Nothing queued, nothing in flight, no error. *)
Definition quiet (w : World) : Prop :=
  error (process w) = None /\ operations (process w) = [] /\
  updating (process w) = false /\ in_flight w = None.

(** The states of the actor, as an invariant of its runs.  [S] lists the
    operations submitted so far; [Content r done] relates the registry the
    actor holds to the operations [done] committed so far. *)
Definition Inv (Content : Registry -> list OperationKind -> Prop)
  (S : list OperationKind) (w : World) : Prop :=
  match recovered (process w) with
  | None => S = [] /\ quiet w /\ continuations w = []
  | Some Pending => S = kind <$> continuations w /\ quiet w
  | Some (Ready _) =>
      continuations w = [] /\
      exists r v,
        registry (process w) = Some r /\ variable (process w) = Some v /\
        match error (process w), in_flight w with
        | Some _, c => c = None /\ updating (process w) = false
        | None, None =>
            updating (process w) = false /\ operations (process w) = [] /\
            Content r S
        | None, Some (reg, applied) =>
            updating (process w) = true /\ reg = batch r applied /\
            last (store_calls w) = Some (mutate v reg) /\
            exists done,
              S = done ++ (kind <$> applied)
                    ++ (kind <$> operations (process w)) /\
              Content r done
        end
  | Some _ => quiet w /\ continuations w = []
  end.

(** The recovered registry of a run: what a successful fetch delivers. *)
Definition fetches (P : Registry -> Prop) (ev : Event) : Prop :=
  match ev with
  | EvFetched (Ready v) => P (get v)
  | _ => True
  end.

(** The registry [r] holds, without duplicates, the identities that the
    replay of [done] yields from those of the recovered registry [r0]. *)
Definition replayed (r0 r : Registry) (done : list OperationKind) : Prop :=
  NoDup (ids r) /\ id_set r = replay done (id_set r0).

(** ** Sample data for the concrete scenarios *)

Definition pv1 : ResourceProviderID := {| value := "pv1" |}.
Definition pv2 : ResourceProviderID := {| value := "pv2" |}.

Definition empty_registry : Registry := {| resource_providers := [] |}.

Definition registry_pv1 : Registry :=
  {| resource_providers := [{| id := pv1; metadata := "" |}] |}.

Definition handle (n : nat) (r : Registry) : Variable_Registry :=
  {| version := n; get := r |}.

Definition admit_at (a : nat) (i : ResourceProviderID) : Operation :=
  {| address := a; kind := Admit i |}.

Definition remove_at (a : nat) (i : ResourceProviderID) : Operation :=
  {| address := a; kind := Remove i |}.

(** The world right after recovery delivered [v], with [queue] waiting,
    and the world while the store of a batch is in flight. *)
Definition recovered_world (v : Variable_Registry) (queue : list Operation)
  : World :=
  {| process := {| recovered := Some (Ready tt); registry := Some (get v);
                   variable := Some v; error := None; operations := queue;
                   updating := false |};
     objects := ∅; continuations := []; in_flight := None;
     store_calls := [] |}.

Definition updating_world (v : Variable_Registry) (applied : list Operation)
  : World :=
  {| process := {| recovered := Some (Ready tt); registry := Some (get v);
                   variable := Some v; error := None; operations := [];
                   updating := true |};
     objects := ∅; continuations := [];
     in_flight := Some (batch (get v) applied, applied);
     store_calls := [mutate v (batch (get v) applied)] |}.

(** ** Further notions for the properties of the whole file *)

(** How many records of a registry carry an identity. *)
Definition count_id (i : ResourceProviderID) (r : Registry) : nat :=
  length (filter (fun rp => id rp = i) (resource_providers r)).

(** The records of a registry that carry another identity, in order. *)
Definition others (i : ResourceProviderID) (r : Registry)
  : list ResourceProvider :=
  filter (fun rp => id rp ≠ i) (resource_providers r).

(** The completed promises of [w] are the same in [w']. *)
Definition stable (w w' : World) : Prop :=
  forall a,
    promise (object (objects w) a) ≠ Pending ->
    promise (object (objects w') a) = promise (object (objects w) a).

(** No registry the actor holds, is storing or has handed to the store
    has two records with one identity. *)
Definition duplicate_free (w : World) : Prop :=
  (forall r, registry (process w) = Some r -> NoDup (ids r)) /\
  (forall reg applied, in_flight w = Some (reg, applied) -> NoDup (ids reg)) /\
  Forall (fun v => NoDup (ids (get v))) (store_calls w).

Definition is_recover (ev : Event) : bool :=
  match ev with EvRecover => true | _ => false end.

(** * Properties *)

(** ** [find_if] *)

Section FindIf.
Context {A : Type} (p : A -> bool).

Lemma find_if_end (l : list A) :
  find_if p l = length l <-> Forall (fun x => p x = false) l.
Proof.
  induction l as [|x l IH]; simpl.
  - split; [constructor | reflexivity].
  - destruct (p x) eqn:E; split.
    + discriminate.
    + intros H. inversion H; congruence.
    + intros H. constructor; [assumption|]. apply IH. lia.
    + intros H. inversion H; subst. f_equal. apply IH. assumption.
Qed.

Lemma find_if_split (l : list A) :
  find_if p l ≠ length l ->
  exists l1 x l2,
    l = l1 ++ x :: l2 /\ p x = true /\
    Forall (fun y => p y = false) l1 /\
    find_if p l = length l1.
Proof.
  induction l as [|x l IH]; simpl; [congruence|].
  destruct (p x) eqn:E; intros H.
  - exists [], x, l. repeat split; [assumption | constructor].
  - destruct IH as (l1 & y & l2 & -> & Hy & Hl1 & Hpos); [lia|].
    exists (x :: l1), y, l2. simpl. repeat split; auto.
Qed.

Lemma delete_middle (l1 l2 : list A) (x : A) :
  delete (length l1) (l1 ++ x :: l2) = l1 ++ l2.
Proof. induction l1 as [|y l1 IH]; simpl; [reflexivity | by rewrite IH]. Qed.

End FindIf.

(** ** The two operations *)

Lemma no_match_iff (i : ResourceProviderID) (l : list ResourceProvider) :
  Forall (fun rp => has_id i rp = false) l <-> i ∉ id <$> l.
Proof.
  rewrite Forall_forall, list_elem_of_fmap. unfold has_id. split.
  - intros H (rp & -> & Hin). specialize (H rp Hin).
    by rewrite bool_decide_eq_false in H.
  - intros H rp Hin. apply bool_decide_eq_false. intros <-. apply H. eauto.
Qed.

Lemma admit_known (i : ResourceProviderID) (r : Registry) :
  i ∈ ids r ->
  AdmitResourceProvider.perform i r
  = (Error "Resource provider already admitted", r).
Proof.
  intros Hin. unfold AdmitResourceProvider.perform.
  destruct (decide _) as [|Hn]; [reflexivity|].
  exfalso. apply dec_stable in Hn. apply find_if_end in Hn.
  by apply (no_match_iff i) in Hn.
Qed.

Lemma admit_fresh (i : ResourceProviderID) (r : Registry) :
  i ∉ ids r ->
  AdmitResourceProvider.perform i r
  = (Value true,
     {| resource_providers :=
          resource_providers r ++ [{| id := i; metadata := "" |}] |}).
Proof.
  intros Hin. unfold AdmitResourceProvider.perform.
  destruct (decide _) as [Hn|]; [|reflexivity].
  exfalso. apply Hn, find_if_end. by apply (no_match_iff i).
Qed.

Lemma remove_unknown (i : ResourceProviderID) (r : Registry) :
  i ∉ ids r ->
  RemoveResourceProvider.perform i r
  = (Error "Attempted to remove an unknown resource provider", r).
Proof.
  intros Hin. unfold RemoveResourceProvider.perform. simpl.
  destruct (decide _) as [|Hn]; [reflexivity|].
  exfalso. apply Hn, find_if_end. by apply (no_match_iff i).
Qed.

Lemma remove_known (i : ResourceProviderID) (r : Registry) :
  i ∈ ids r ->
  exists l1 rp l2,
    resource_providers r = l1 ++ rp :: l2 /\ id rp = i /\ (i ∉ id <$> l1) /\
    RemoveResourceProvider.perform i r
    = (Value true, {| resource_providers := l1 ++ l2 |}).
Proof.
  intros Hin. unfold RemoveResourceProvider.perform. simpl.
  destruct (decide _) as [Hn|Hn].
  - exfalso. apply find_if_end in Hn. by apply (no_match_iff i) in Hn.
  - destruct (find_if_split _ _ Hn) as (l1 & rp & l2 & Hl & Hrp & Hl1 & Hpos).
    exists l1, rp, l2. repeat split; [done | | by apply no_match_iff |].
    + by apply bool_decide_eq_true in Hrp.
    + unfold erase. rewrite Hpos, Hl. by rewrite delete_middle.
Qed.

(** An operation that reports an error leaves the registry as it was. *)
Lemma perform_error (k : OperationKind) (r : Registry) :
  isError (fst (perform k r)) = true -> snd (perform k r) = r.
Proof.
  destruct k as [i|i]; simpl; destruct (decide (i ∈ ids r)) as [Hin|Hin].
  - by rewrite admit_known.
  - by rewrite admit_fresh.
  - destruct (remove_known i r Hin) as (? & ? & ? & _ & _ & _ & ->). done.
  - by rewrite remove_unknown.
Qed.

Lemma perform_NoDup (k : OperationKind) (r : Registry) :
  NoDup (ids r) -> NoDup (ids (snd (perform k r))).
Proof.
  intros Hnd. destruct k as [i|i]; simpl;
    destruct (decide (i ∈ ids r)) as [Hin|Hin].
  - by rewrite admit_known.
  - rewrite admit_fresh by done. unfold ids in *. simpl.
    rewrite fmap_app. apply NoDup_app. repeat split; [done | | ].
    + intros x Hx Hx'. apply list_elem_of_singleton in Hx'. by subst.
    + apply NoDup_singleton.
  - destruct (remove_known i r Hin) as (l1 & rp & l2 & Hl & _ & _ & ->).
    unfold ids in *. simpl. rewrite Hl in Hnd.
    rewrite fmap_app in *. simpl in Hnd.
    apply NoDup_app in Hnd as (H1 & H2 & H3).
    apply NoDup_cons in H3 as [_ H3].
    apply NoDup_app. repeat split; [done | | done].
    intros x Hx Hx'. apply (H2 x Hx). by right.
  - by rewrite remove_unknown.
Qed.

(** On a registry without duplicates an operation does to the set of
    identities what the replay of the specification does. *)
Lemma perform_replay (k : OperationKind) (r : Registry) :
  NoDup (ids r) ->
  id_set (snd (perform k r)) = replay_step (id_set r) k.
Proof.
  intros Hnd. unfold id_set.
  destruct k as [i|i]; simpl;
    destruct (decide (i ∈ ids r)) as [Hin|Hin].
  - rewrite admit_known by done. simpl.
    rewrite decide_True by (by apply elem_of_list_to_set). done.
  - rewrite admit_fresh by done. simpl.
    rewrite decide_False by (by rewrite elem_of_list_to_set).
    unfold ids. simpl. rewrite fmap_app, list_to_set_app_L. simpl.
    set_solver.
  - destruct (remove_known i r Hin) as (l1 & rp & l2 & Hl & Hrp & Hl1 & ->).
    simpl. rewrite decide_True by (by apply elem_of_list_to_set).
    unfold ids in *. simpl. rewrite Hl in *.
    rewrite fmap_app in *. simpl in *.
    apply NoDup_app in Hnd as (H1 & H2 & H3).
    apply NoDup_cons in H3 as [H3 _]. subst i.
    rewrite !list_to_set_app_L. simpl.
    assert (id rp ∉ (list_to_set (id <$> l1) : gset _))
      by (by rewrite elem_of_list_to_set).
    assert (id rp ∉ (list_to_set (id <$> l2) : gset _))
      by (by rewrite elem_of_list_to_set).
    set_solver.
  - rewrite remove_unknown by done. simpl.
    rewrite decide_False by (by rewrite elem_of_list_to_set). done.
Qed.

(** ** Operation objects and the loops over them *)

Lemma object_insert (objs : gmap nat OperationState) (a a' : nat)
  (o : OperationState) :
  object (<[a := o]> objs) a' = if decide (a = a') then o else object objs a'.
Proof.
  unfold object. destruct (decide (a = a')) as [->|Hne].
  - by rewrite lookup_insert_eq.
  - by rewrite lookup_insert_ne.
Qed.

Lemma Promise_fail_idem {A} (f : Future A) (m : string) :
  Promise_fail (Promise_fail f m) m = Promise_fail f m.
Proof. by destruct f. Qed.

Lemma Promise_set_idem {A} (f : Future A) (a : A) :
  Promise_set (Promise_set f a) a = Promise_set f a.
Proof. by destruct f. Qed.

Lemma batch_app (r : Registry) (l1 l2 : list Operation) :
  batch r (l1 ++ l2) = batch (batch r l1) l2.
Proof. unfold batch. apply foldl_app. Qed.

(** The loop of [update] performs the operations in order on the
    snapshot; in the object store it touches nothing but the [success]
    flags of the operations of the batch. *)
Lemma foreach_operation_spec (ops : list Operation) (r : Registry) (w : World) :
  exists objs',
    foreach_operation ops r w
    = Some (batch r ops, with_objects (fun _ => objs') w) /\
    (forall a, promise (object objs' a) = promise (object (objects w) a)) /\
    (forall a, a ∉ address <$> ops -> object objs' a = object (objects w) a) /\
    (forall l1 operation l2,
        ops = l1 ++ operation :: l2 ->
        address operation ∉ address <$> l2 ->
        success (object objs' (address operation))
        = negb (isError (fst (perform (kind operation) (batch r l1))))).
Proof.
  revert r w. induction ops as [|op ops IH]; intros r w.
  - exists (objects w). simpl. repeat split; try done.
    + by destruct w.
    + intros [] ? ? ?; discriminate.
  - simpl. unfold bind at 1, Operation_call. simpl.
    match goal with |- context [with_objects ?f w] =>
      destruct (IH (snd (perform (kind op) r)) (with_objects f w))
        as (objs' & Hrun & Hprom & Hout & Hflag) end.
    exists objs'. simpl in *. repeat split.
    + rewrite Hrun. by destruct w.
    + intros a. rewrite Hprom, object_insert.
      destruct (decide _) as [->|]; done.
    + intros a Ha. apply not_elem_of_cons in Ha as [Hne Ha].
      rewrite Hout by done. rewrite object_insert.
      by rewrite decide_False.
    + intros l1 operation l2 Hl Hfresh. destruct l1 as [|op' l1]; simpl in Hl.
      * injection Hl as -> ->. rewrite Hout by done.
        rewrite object_insert, decide_True by done. done.
      * injection Hl as -> ->. exact (Hflag l1 operation l2 eq_refl Hfresh).
Qed.

(** Failing a batch: the promise of every operation of the batch is
    failed with the message, and nothing else changes. *)
Lemma fail_all_spec (applied : list Operation) (message : string) (w : World) :
  exists objs',
    fail_all applied message w = Some (tt, with_objects (fun _ => objs') w) /\
    forall a,
      object objs' a
      = if decide (a ∈ address <$> applied)
        then {| success := success (object (objects w) a);
                promise := Promise_fail (promise (object (objects w) a))
                             message |}
        else object (objects w) a.
Proof.
  revert w. induction applied as [|op applied IH]; intros w.
  - exists (objects w). simpl. split; [by destruct w|].
    intros a. reflexivity.
  - simpl. unfold bind at 1, Operation_fail.
    match goal with |- context [with_objects ?f w] =>
      destruct (IH (with_objects f w)) as (objs' & Hrun & Hobj) end.
    exists objs'. split; [rewrite Hrun; by destruct w|].
    intros a. rewrite Hobj. simpl. rewrite object_insert.
    destruct (decide (address op = a)) as [<-|Hne].
    + rewrite (decide_True (P := _ ∈ _ :: _)) by left. simpl.
      destruct (decide _); [by rewrite Promise_fail_idem | done].
    + destruct (decide (a ∈ address <$> applied)) as [Hin|Hin].
      * rewrite decide_True by (by right). done.
      * rewrite decide_False; [done|].
        apply not_elem_of_cons. split; [congruence | done].
Qed.

(** Signalling a batch: the promise of every operation of the batch is
    set to its [success] flag, and nothing else changes. *)
Lemma set_all_spec (applied : list Operation) (w : World) :
  exists objs',
    set_all applied w = Some (tt, with_objects (fun _ => objs') w) /\
    forall a,
      object objs' a
      = if decide (a ∈ address <$> applied)
        then {| success := success (object (objects w) a);
                promise := Promise_set (promise (object (objects w) a))
                             (success (object (objects w) a)) |}
        else object (objects w) a.
Proof.
  revert w. induction applied as [|op applied IH]; intros w.
  - exists (objects w). simpl. split; [by destruct w|].
    intros a. reflexivity.
  - simpl. unfold bind at 1, Operation_set.
    match goal with |- context [with_objects ?f w] =>
      destruct (IH (with_objects f w)) as (objs' & Hrun & Hobj) end.
    exists objs'. split; [rewrite Hrun; by destruct w|].
    intros a. rewrite Hobj. simpl. rewrite object_insert.
    destruct (decide (address op = a)) as [<-|Hne].
    + rewrite (decide_True (P := _ ∈ _ :: _)) by left. simpl.
      destruct (decide _); [by rewrite Promise_set_idem | done].
    + destruct (decide (a ∈ address <$> applied)) as [Hin|Hin].
      * rewrite decide_True by (by right). done.
      * rewrite decide_False; [done|].
        apply not_elem_of_cons. split; [congruence | done].
Qed.

(** ** The handlers *)

Ltac handler :=
  repeat progress
    (unfold update, _update, _apply, apply, recover, fetched, stored,
       bind, ret, read, write, CHECK, CHECK_NONE, CHECK_SOME, state_store;
     cbn -[foreach_operation fail_all set_all batch run_continuations
           String.append]).

(** A batch commit on a non-empty queue, with the checks of [update]
    satisfied: every queued operation is performed on a copy of the
    registry, one store call is issued for the result, and the queue
    moves to the callback. *)
Lemma update_spec (w : World) (r : Registry) (v : Variable_Registry)
  (op : Operation) (ops : list Operation) :
  updating (process w) = false ->
  error (process w) = None ->
  registry (process w) = Some r ->
  variable (process w) = Some v ->
  operations (process w) = op :: ops ->
  exists objs',
    update w
    = Some (tt,
            {| process := set_operations [] (set_updating true (process w));
               objects := objs';
               continuations := continuations w;
               in_flight := Some (batch r (op :: ops), op :: ops);
               store_calls :=
                 store_calls w ++ [mutate v (batch r (op :: ops))] |}) /\
    (forall a, promise (object objs' a) = promise (object (objects w) a)) /\
    (forall a, a ∉ address <$> op :: ops ->
               object objs' a = object (objects w) a) /\
    (forall l1 operation l2,
        op :: ops = l1 ++ operation :: l2 ->
        address operation ∉ address <$> l2 ->
        success (object objs' (address operation))
        = negb (isError (fst (perform (kind operation) (batch r l1))))).
Proof.
  destruct w as [[rec reg var err oper upd] objs conts infl calls].
  simpl. intros -> -> -> -> ->. handler.
  match goal with |- context [foreach_operation ?l ?r ?W] =>
    destruct (foreach_operation_spec l r W)
      as (objs' & -> & Hprom & Hout & Hflag) end.
  exists objs'. simpl in *. repeat split; done.
Qed.

Lemma update_empty (w : World) :
  updating (process w) = false ->
  error (process w) = None ->
  operations (process w) = [] ->
  update w = Some (tt, w).
Proof.
  destruct w as [[rec reg var err oper upd] objs conts infl calls].
  simpl. intros -> -> ->. reflexivity.
Qed.

Ltac callback :=
  repeat progress
    (unfold _update, _apply, apply, fetched, stored, bind, ret, read, write;
     cbn -[update fail_all set_all batch run_continuations String.append]).

(** Completion of a store that did not succeed. *)
Lemma stored_failure (w : World) (reg : Registry) (applied : list Operation)
  (store : Future (option Variable_Registry)) (message : string) :
  in_flight w = Some (reg, applied) ->
  failure_message store = Some message ->
  exists objs',
    stored store w
    = Some (tt,
            {| process := set_error (Some message)
                            (set_updating false (process w));
               objects := objs';
               continuations := continuations w;
               in_flight := None;
               store_calls := store_calls w |}) /\
    forall a,
      object objs' a
      = if decide (a ∈ address <$> applied)
        then {| success := success (object (objects w) a);
                promise := Promise_fail (promise (object (objects w) a))
                             message |}
        else object (objects w) a.
Proof.
  destruct w as [[rec r var err oper upd] objs conts infl calls].
  simpl. intros -> Hmsg.
  destruct store as [|[v|]|failure|]; simplify_eq/=; handler;
    match goal with |- context [fail_all ?l ?m ?W] =>
      destruct (fail_all_spec l m W) as (objs' & -> & Hobj) end;
    exists objs'; split; done.
Qed.

(** Completion of a store that succeeded. *)
Lemma stored_success (w : World) (reg : Registry) (applied : list Operation)
  (v' : Variable_Registry) :
  in_flight w = Some (reg, applied) ->
  error (process w) = None ->
  exists w',
    stored (Ready (Some v')) w = Some (tt, w') /\
    recovered (process w') = recovered (process w) /\
    registry (process w') = Some reg /\
    variable (process w') = Some v' /\
    error (process w') = None /\
    operations (process w') = [] /\
    continuations w' = continuations w /\
    (forall a,
        promise (object (objects w') a)
        = if decide (a ∈ address <$> applied)
          then Promise_set (promise (object (objects w) a))
                 (success (object (objects w) a))
          else promise (object (objects w) a)) /\
    match operations (process w) with
    | [] =>
        updating (process w') = false /\ in_flight w' = None /\
        store_calls w' = store_calls w
    | op :: ops =>
        updating (process w') = true /\
        in_flight w' = Some (batch reg (op :: ops), op :: ops) /\
        store_calls w' = store_calls w ++ [mutate v' (batch reg (op :: ops))]
    end.
Proof.
  destruct w as [[rec r var err oper upd] objs conts infl calls].
  simpl. intros -> ->. callback.
  match goal with |- context [set_all ?l ?W] =>
    destruct (set_all_spec l W) as (objs' & -> & Hobj) end.
  simpl in *. destruct oper as [|op ops].
  - eexists. split; [reflexivity|]. simpl. repeat split; try done.
    intros a. rewrite Hobj. by destruct (decide _).
  - match goal with |- context [update ?W] =>
      destruct (update_spec W reg v' op ops)
        as (objs'' & Hrun & Hprom & _); try done end.
    simpl in *. rewrite Hrun. eexists. split; [reflexivity|].
    simpl. repeat split; try done.
    intros a. rewrite Hprom, Hobj. by destruct (decide _).
Qed.

(** An [apply] that arrives while a store is in flight only joins the
    queue. *)
Lemma apply_while_updating (operation : Operation) (w : World) :
  recovered (process w) = Some (Ready tt) ->
  error (process w) = None ->
  updating (process w) = true ->
  apply operation w
  = Some (OperationFuture operation,
          with_process (set_operations (operations (process w) ++ [operation]))
            w).
Proof.
  destruct w as [[rec reg var err oper upd] objs conts infl calls].
  simpl. intros -> -> ->. reflexivity.
Qed.

Lemma run_arrivals (arrivals : list Operation) (w : World) :
  recovered (process w) = Some (Ready tt) ->
  error (process w) = None ->
  updating (process w) = true ->
  run (EvApply <$> arrivals) w
  = Some (tt,
          with_process (set_operations (operations (process w) ++ arrivals)) w).
Proof.
  revert w. induction arrivals as [|a arrivals IH]; intros w Hrec Herr Hupd.
  - simpl. unfold ret. rewrite app_nil_r. by destruct w as [[]].
  - simpl. unfold bind at 1. simpl. unfold bind at 1.
    rewrite apply_while_updating by done. unfold ret at 1.
    rewrite IH by (by destruct w as [[]]).
    destruct w as [[]]. simpl. unfold with_process. simpl.
    by rewrite <- app_assoc.
Qed.

(** A whole commit: the batch is formed, further operations arrive while
    the store is in flight, and the store succeeds.  The promise of every
    operation of the batch is then set to the outcome of its own
    [perform]: true when it returned a value, false when it returned an
    error. *)
Lemma commit_signals (w : World) (r : Registry) (v v' : Variable_Registry)
  (ops arrivals : list Operation) :
  recovered (process w) = Some (Ready tt) ->
  updating (process w) = false ->
  error (process w) = None ->
  registry (process w) = Some r ->
  variable (process w) = Some v ->
  operations (process w) = ops ->
  ops ≠ [] ->
  NoDup (address <$> ops) ->
  (forall o, o ∈ ops -> future_of w o = Pending) ->
  exists w1 w2 w3,
    update w = Some (tt, w1) /\
    in_flight w1 = Some (batch r ops, ops) /\
    store_calls w1 = store_calls w ++ [mutate v (batch r ops)] /\
    operations (process w1) = [] /\
    run (EvApply <$> arrivals) w1 = Some (tt, w2) /\
    stored (Ready (Some v')) w2 = Some (tt, w3) /\
    registry (process w3) = Some (batch r ops) /\
    variable (process w3) = Some v' /\
    forall l1 o l2,
      ops = l1 ++ o :: l2 ->
      future_of w3 o
      = Ready (negb (isError (fst (perform (kind o) (batch r l1))))).
Proof.
  intros Hrec Hupd Herr Hreg Hvar Hops Hne Hnd Hpending.
  destruct ops as [|op ops]; [done|].
  destruct (update_spec w r v op ops Hupd Herr Hreg Hvar Hops)
    as (objs1 & Hrun1 & Hprom1 & _ & Hflag1).
  match type of Hrun1 with _ = Some (tt, ?W) => set (w1 := W) in * end.
  assert (Hrun2 := run_arrivals arrivals w1).
  match type of Hrun2 with _ -> _ -> _ -> _ = Some (tt, ?W) =>
    set (w2 := W) in * end.
  destruct (stored_success w2 (batch r (op :: ops)) (op :: ops) v')
    as (w3 & Hrun3 & _ & Hreg3 & Hvar3 & _ & _ & _ & Hprom3 & _).
  { reflexivity. }
  { destruct w as [[]]; simpl in *; by subst. }
  exists w1, w2, w3. repeat split; try done.
  { apply Hrun2; destruct w as [[]]; simpl in *; by subst. }
  intros l1 o l2 Hl. unfold future_of. rewrite Hprom3.
  rewrite decide_True.
  2:{ rewrite Hl, fmap_app, fmap_cons. apply elem_of_app. right. left. }
  simpl. rewrite Hprom1.
  assert (Ho : o ∈ op :: ops).
  { rewrite Hl. apply elem_of_app. right. left. }
  specialize (Hpending o Ho). unfold future_of in Hpending.
  rewrite Hpending. simpl. f_equal. apply (Hflag1 l1 o l2 Hl).
  rewrite Hl, fmap_app, fmap_cons in Hnd.
  apply NoDup_app in Hnd as (_ & _ & Hnd).
  by apply NoDup_cons in Hnd as [Hnd _].
Qed.

(** An operation returns a value exactly when it changes the registry. *)
Lemma perform_mutates (k : OperationKind) (r : Registry) :
  isError (fst (perform k r)) = false <-> snd (perform k r) ≠ r.
Proof.
  destruct k as [i|i]; simpl; destruct (decide (i ∈ ids r)) as [Hin|Hin].
  - rewrite admit_known by done. simpl. split; [discriminate | done].
  - rewrite admit_fresh by done. simpl. split; [|done].
    intros _ Heq. destruct r as [l]. simpl in Heq. injection Heq as Heq.
    apply (f_equal length) in Heq. rewrite length_app in Heq. simpl in Heq.
    lia.
  - destruct (remove_known i r Hin) as (l1 & rp & l2 & Hl & _ & _ & ->).
    simpl. split; [|done].
    intros _ Heq. destruct r as [l]. simpl in *. injection Heq as Heq.
    subst l. apply (f_equal length) in Heq. rewrite !length_app in Heq.
    simpl in Heq. lia.
  - rewrite remove_unknown by done. simpl. split; [discriminate | done].
Qed.

(** ** [_apply] and the callbacks in each state *)

Lemma _apply_failed (operation : Operation) (w : World) (e : string) :
  error (process w) = Some e ->
  _apply operation w = Some (Failure e, w).
Proof.
  destruct w as [[rec reg var err oper upd] objs conts infl calls].
  simpl. intros ->. reflexivity.
Qed.

Lemma _apply_updating (operation : Operation) (w : World) :
  error (process w) = None ->
  updating (process w) = true ->
  _apply operation w
  = Some (OperationFuture operation,
          with_process (set_operations (operations (process w) ++ [operation]))
            w).
Proof.
  destruct w as [[rec reg var err oper upd] objs conts infl calls].
  simpl. intros -> ->. reflexivity.
Qed.

Lemma _apply_idle (operation : Operation) (w : World) (r : Registry)
  (v : Variable_Registry) :
  error (process w) = None ->
  updating (process w) = false ->
  operations (process w) = [] ->
  registry (process w) = Some r ->
  variable (process w) = Some v ->
  exists objs',
    _apply operation w
    = Some (OperationFuture operation,
            {| process := set_updating true (process w);
               objects := objs';
               continuations := continuations w;
               in_flight := Some (batch r [operation], [operation]);
               store_calls :=
                 store_calls w ++ [mutate v (batch r [operation])] |}).
Proof.
  destruct w as [[rec reg var err oper upd] objs conts infl calls].
  simpl. intros -> -> -> -> ->. callback.
  match goal with |- context [update ?W] =>
    destruct (update_spec W r v operation []) as (objs' & -> & _);
      try done end.
  exists objs'. reflexivity.
Qed.

Lemma run_continuations_updating (ops : list Operation) (w : World) :
  error (process w) = None ->
  updating (process w) = true ->
  run_continuations ops w
  = Some (tt, with_process (set_operations (operations (process w) ++ ops)) w).
Proof.
  revert w. induction ops as [|a ops IH]; intros w Herr Hupd.
  - simpl. unfold ret. rewrite app_nil_r. by destruct w as [[]].
  - simpl. unfold bind at 1. rewrite _apply_updating by done.
    rewrite IH by (by destruct w as [[]]).
    destruct w as [[]]. simpl. unfold with_process. simpl.
    by rewrite <- app_assoc.
Qed.

Lemma stored_idle (store : Future (option Variable_Registry)) (w : World) :
  in_flight w = None -> stored store w = Some (tt, w).
Proof. unfold stored. by intros ->. Qed.

Lemma stored_pending (w : World) : stored Pending w = Some (tt, w).
Proof. unfold stored. by destruct (in_flight w) as [[]|]. Qed.

Lemma submissions_cons (b : bool) (ev : Event) (evs : list Event) :
  submissions b (ev :: evs)
  = submissions b [ev]
      ++ submissions (match ev with EvRecover => true | _ => b end) evs.
Proof. destruct ev; simpl; try done. by rewrite app_nil_r. Qed.

(** ** The states of the actor are preserved by every event *)

Section Runs.
Context (Content : Registry -> list OperationKind -> Prop).
Hypothesis Content_step :
  forall r done ops,
    Content r done -> Content (batch r ops) (done ++ (kind <$> ops)).

Lemma recover_Inv (S : list OperationKind) (w : World) :
  Inv Content S w ->
  exists w',
    deliver EvRecover w = Some (tt, w') /\ Inv Content S w' /\
    invoked w' = true.
Proof.
  destruct w as [[rec reg var err oper upd] objs conts infl calls].
  unfold Inv, quiet, invoked. simpl. intros HI.
  destruct rec as [f|]; (eexists; split; [reflexivity|]); simpl.
  - done.
  - destruct HI as (-> & ? & ->). done.
Qed.

Lemma apply_Inv (operation : Operation) (S : list OperationKind) (w : World) :
  Inv Content S w ->
  exists w',
    deliver (EvApply operation) w = Some (tt, w') /\
    Inv Content (S ++ (if invoked w then [kind operation] else [])) w' /\
    invoked w' = invoked w.
Proof.
  destruct w as [[rec reg var err oper upd] objs conts infl calls].
  unfold Inv, quiet, invoked. simpl. intros HI.
  destruct rec as [[|[]|msg|]|]; simpl in *.
  - (* recovery pending: the call is chained *)
    eexists; split; [reflexivity|]. simpl.
    destruct HI as (-> & ?). by rewrite fmap_app.
  - (* recovered *)
    destruct HI as (-> & r & v & -> & -> & HI).
    destruct err as [e|].
    + eexists; split; [reflexivity|]. simpl. eauto 10.
    + destruct infl as [[reg' applied]|].
      * destruct HI as (-> & -> & Hlast & done & -> & Hc).
        eexists; split; [reflexivity|]. simpl.
        split; [|done]. split; [done|]. exists r, v. repeat split; try done.
        exists done. split; [|done].
        by rewrite fmap_app, <- !app_assoc.
      * destruct HI as (-> & -> & Hc).
        unfold deliver, apply, bind, read, ret. cbn -[_apply].
        match goal with |- context [_apply ?o ?W] =>
          destruct (_apply_idle o W r v) as (objs' & Hrun); try done end.
        rewrite Hrun. simpl.
        eexists; split; [reflexivity|]. simpl.
        split; [|done]. split; [done|]. exists r, v. repeat split; try done.
        { by rewrite last_snoc. }
        exists S. split; [|done]. by rewrite ?app_nil_r.
  - eexists; split; [reflexivity|]. done.
  - eexists; split; [reflexivity|]. done.
  - eexists; split; [reflexivity|]. simpl. by rewrite app_nil_r.
Qed.

Lemma fetched_Inv (recovery : Future Variable_Registry)
  (S : list OperationKind) (w : World) :
  Inv Content S w ->
  fetches (fun r => Content r []) (EvFetched recovery) ->
  exists w',
    deliver (EvFetched recovery) w = Some (tt, w') /\ Inv Content S w' /\
    invoked w' = invoked w.
Proof.
  destruct w as [[rec reg var err oper upd] objs conts infl calls].
  unfold Inv, quiet, invoked. simpl. intros HI Hf.
  destruct rec as [[|[]|msg|]|]; simpl in *;
    try (eexists; split; [reflexivity|]; done).
  destruct HI as (-> & -> & -> & -> & ->).
  destruct recovery as [|v|msg|];
    try (eexists; split; [reflexivity|]; done).
  unfold fetched, bind, read, write. cbn -[run_continuations].
  destruct conts as [|c cs].
  - eexists; split; [reflexivity|]. simpl. eauto 10.
  - cbn [run_continuations]. unfold bind.
    match goal with |- context [_apply ?o ?W] =>
      destruct (_apply_idle o W (get v) v) as (objs' & ->); try done end.
    rewrite run_continuations_updating by done.
    eexists; split; [reflexivity|]. simpl.
    split; [|done]. split; [done|]. exists (get v), v. repeat split; try done.
    { by rewrite last_snoc. }
    exists []. split; done.
Qed.

Lemma stored_Inv (store : Future (option Variable_Registry))
  (S : list OperationKind) (w : World) :
  Inv Content S w ->
  exists w',
    deliver (EvStored store) w = Some (tt, w') /\ Inv Content S w' /\
    invoked w' = invoked w.
Proof.
  intros HI. simpl.
  destruct (in_flight w) as [[reg applied]|] eqn:Hfl.
  2:{ exists w. by rewrite stored_idle. }
  destruct store as [|[v'|]|failure|]; [exists w; by rewrite stored_pending|..].
  - (* the store succeeded *)
    unfold Inv, quiet in HI. rewrite Hfl in HI.
    destruct (recovered (process w)) as [[|[]|msg|]|] eqn:Hrec;
      [exfalso; clear -HI; naive_solver | |
       exfalso; clear -HI; naive_solver ..].
    destruct HI as (Hconts & r & v & Hreg & Hvar & HI).
    destruct (error (process w)) as [e|] eqn:Herr; [by destruct HI|].
    destruct HI as (Hupd & -> & Hlast & done & -> & Hc).
    destruct (stored_success w (batch r applied) applied v' Hfl Herr)
      as (w' & Hrun & Hrec' & Hreg' & Hvar' & Herr' & Hops' & Hconts' & _ & Hq).
    exists w'. split; [done|]. unfold Inv, invoked.
    rewrite Hrec', Hrec, Hreg', Hvar', Herr', Hconts', Hops'.
    split; [|done]. split; [done|].
    exists (batch r applied), v'. repeat split.
    destruct (operations (process w)) as [|op ops].
    + destruct Hq as (-> & -> & _). repeat split.
      rewrite app_nil_r. by apply Content_step.
    + destruct Hq as (-> & -> & ->). repeat split.
      { by rewrite last_snoc. }
      exists (done ++ (kind <$> applied)).
      split; [by rewrite app_nil_r, <- app_assoc|].
      by apply Content_step.
  - (* version mismatch *)
    destruct (stored_failure w reg applied (Ready None) _ Hfl eq_refl)
      as (objs' & Hrun & _).
    eexists. split; [exact Hrun|]. clear Hrun.
    unfold Inv, quiet, invoked in *. rewrite Hfl in HI.
    destruct w as [[rec r var err oper upd] objs conts infl calls].
    simpl in *.
    destruct rec as [[|[]|msg|]|]; try naive_solver.
  - destruct (stored_failure w reg applied (Failed failure) _ Hfl eq_refl)
      as (objs' & Hrun & _).
    eexists. split; [exact Hrun|]. clear Hrun.
    unfold Inv, quiet, invoked in *. rewrite Hfl in HI.
    destruct w as [[rec r var err oper upd] objs conts infl calls].
    simpl in *.
    destruct rec as [[|[]|msg|]|]; try naive_solver.
  - destruct (stored_failure w reg applied Discarded _ Hfl eq_refl)
      as (objs' & Hrun & _).
    eexists. split; [exact Hrun|]. clear Hrun.
    unfold Inv, quiet, invoked in *. rewrite Hfl in HI.
    destruct w as [[rec r var err oper upd] objs conts infl calls].
    simpl in *.
    destruct rec as [[|[]|msg|]|]; try naive_solver.
Qed.

Lemma deliver_Inv (ev : Event) (S : list OperationKind) (w : World) :
  Inv Content S w ->
  fetches (fun r => Content r []) ev ->
  exists w',
    deliver ev w = Some (tt, w') /\
    Inv Content (S ++ submissions (invoked w) [ev]) w' /\
    invoked w' = match ev with EvRecover => true | _ => invoked w end.
Proof.
  intros HI Hf. destruct ev as [|recovery|operation|store].
  - destruct (recover_Inv S w HI) as (w' & ? & ? & ?).
    exists w'. simpl. by rewrite app_nil_r.
  - destruct (fetched_Inv recovery S w HI Hf) as (w' & ? & ? & ?).
    exists w'. simpl. by rewrite app_nil_r.
  - destruct (apply_Inv operation S w HI) as (w' & ? & ? & ?).
    exists w'. simpl. by rewrite app_nil_r.
  - destruct (stored_Inv store S w HI) as (w' & ? & ? & ?).
    exists w'. simpl. by rewrite app_nil_r.
Qed.

Lemma run_Inv (evs : list Event) (S : list OperationKind) (w : World) :
  Inv Content S w ->
  Forall (fetches (fun r => Content r [])) evs ->
  exists w',
    run evs w = Some (tt, w') /\
    Inv Content (S ++ submissions (invoked w) evs) w'.
Proof.
  revert S w. induction evs as [|ev evs IH]; intros S w HI Hf.
  - exists w. simpl. by rewrite app_nil_r.
  - apply Forall_cons in Hf as [Hev Hf].
    destruct (deliver_Inv ev S w HI Hev) as (w1 & Hrun1 & HI1 & Hinv).
    destruct (IH _ w1 HI1 Hf) as (w' & Hrun & HI').
    exists w'. split.
    + simpl. unfold bind. by rewrite Hrun1.
    + rewrite submissions_cons, app_assoc. by rewrite <- Hinv.
Qed.

End Runs.

(** ** Runs from the initial world *)

Lemma replay_app (l1 l2 : list OperationKind) (s : gset ResourceProviderID) :
  replay (l1 ++ l2) s = replay l2 (replay l1 s).
Proof. unfold replay. apply foldl_app. Qed.

Lemma replayed_step (r0 r : Registry) (done : list OperationKind)
  (ops : list Operation) :
  replayed r0 r done -> replayed r0 (batch r ops) (done ++ (kind <$> ops)).
Proof.
  revert r done. induction ops as [|op ops IH]; intros r done [Hnd Hset].
  - simpl. rewrite app_nil_r. by split.
  - rewrite fmap_cons, cons_middle, app_assoc.
    change (batch r (op :: ops))
      with (batch (snd (perform (kind op) r)) ops).
    apply IH. split.
    + by apply perform_NoDup.
    + rewrite replay_app, perform_replay by done. simpl. by rewrite Hset.
Qed.

Lemma Inv_initial (Content : Registry -> list OperationKind -> Prop) :
  Inv Content [] initial.
Proof. unfold Inv, quiet. simpl. done. Qed.

(** No run of the actor violates one of its [CHECK]s. *)
Lemma run_total (evs : list Event) :
  exists w, run evs initial = Some (tt, w).
Proof.
  destruct (run_Inv (fun _ _ => True) (fun _ _ _ _ => I) evs [] initial)
    as (w & Hrun & _).
  - apply Inv_initial.
  - apply Forall_forall. intros [|[]| |] _; exact I.
  - by exists w.
Qed.

(** Once the error is recorded nothing moves any more: every event leaves
    the world as it is, and every [apply] is answered with the error. *)
Lemma failed_is_frozen (Content : Registry -> list OperationKind -> Prop)
  (S : list OperationKind) (w : World) (e : string) :
  Inv Content S w ->
  error (process w) = Some e ->
  (forall ev, deliver ev w = Some (tt, w)) /\
  (forall operation, apply operation w = Some (Failure e, w)).
Proof.
  destruct w as [[rec reg var err oper upd] objs conts infl calls].
  unfold Inv, quiet. simpl. intros HI ->.
  destruct rec as [[|[]|msg|]|]; try (exfalso; clear -HI; naive_solver).
  destruct HI as (-> & r & v & -> & -> & -> & ->).
  split; [|done]. by intros [|f| |store].
Qed.

Lemma failed_stays_failed (Content : Registry -> list OperationKind -> Prop)
  (S : list OperationKind) (w : World) (e : string) (evs : list Event) :
  Inv Content S w ->
  error (process w) = Some e ->
  run evs w = Some (tt, w).
Proof.
  intros HI Herr. induction evs as [|ev evs IH]; [done|].
  simpl. unfold bind.
  destruct (failed_is_frozen Content S w e HI Herr) as [-> _]. done.
Qed.

(** C2. For every registry and identity, [AdmitResourceProvider::perform]
    returns the "already admitted" error and leaves the registry unchanged
    when some record with that identity is present, and otherwise appends
    a new record carrying that identity and returns true. *)
Theorem admit_perform_spec (r : Registry) (i : ResourceProviderID) :
  ((exists rp, rp ∈ resource_providers r /\ id rp = i) ->
   AdmitResourceProvider.perform i r
   = (Error "Resource provider already admitted", r))
  /\
  ((~ exists rp, rp ∈ resource_providers r /\ id rp = i) ->
   exists rp, id rp = i /\
     AdmitResourceProvider.perform i r
     = (Value true, {| resource_providers := resource_providers r ++ [rp] |})).
Proof.
  split.
  - intros (rp & Hin & Hid). apply admit_known.
    unfold ids. apply list_elem_of_fmap. eauto.
  - intros Hno. eexists. split; [|apply admit_fresh]; [reflexivity|].
    unfold ids. rewrite list_elem_of_fmap. intros (rp & -> & Hin). eauto.
Qed.

(** C3. For every registry and identity, [RemoveResourceProvider::perform]
    returns the "unknown resource provider" error and leaves the registry
    unchanged when no record with that identity is present, and otherwise
    removes the (first) matching record and returns true. *)
Theorem remove_perform_spec (r : Registry) (i : ResourceProviderID) :
  ((~ exists rp, rp ∈ resource_providers r /\ id rp = i) ->
   RemoveResourceProvider.perform i r
   = (Error "Attempted to remove an unknown resource provider", r))
  /\
  ((exists rp, rp ∈ resource_providers r /\ id rp = i) ->
   exists l1 rp l2,
     resource_providers r = l1 ++ rp :: l2 /\ id rp = i /\
     (forall x, x ∈ l1 -> id x ≠ i) /\
     RemoveResourceProvider.perform i r
     = (Value true, {| resource_providers := l1 ++ l2 |})).
Proof.
  split.
  - intros Hno. apply remove_unknown.
    unfold ids. rewrite list_elem_of_fmap. intros (rp & -> & Hin). eauto.
  - intros (rp & Hin & Hid).
    destruct (remove_known i r) as (l1 & x & l2 & Hl & Hx & Hl1 & Hp).
    { unfold ids. apply list_elem_of_fmap. eauto. }
    exists l1, x, l2. repeat split; try done.
    intros y Hy Heq. apply Hl1. apply list_elem_of_fmap. eauto.
Qed.

(** C8. On a registry in which no two records share an identity, both
    [AdmitResourceProvider::perform] and [RemoveResourceProvider::perform]
    yield a registry in which no two records share an identity. *)
Theorem perform_preserves_uniqueness (r : Registry) (i : ResourceProviderID) :
  NoDup (ids r) ->
  NoDup (ids (snd (AdmitResourceProvider.perform i r))) /\
  NoDup (ids (snd (RemoveResourceProvider.perform i r))).
Proof.
  intros Hnd. split.
  - apply (perform_NoDup (Admit i) r Hnd).
  - apply (perform_NoDup (Remove i) r Hnd).
Qed.

(** C1 (as amended). In every run of one versioned-store registrar whose
    recovery delivered a registry [r0] without duplicate identities, the
    registry handed to the store by a batch commit holds exactly the
    identities obtained by replaying, in submission order and starting
    from the identities of [r0] (the empty set when nothing was stored
    before), the operations submitted after [recover] was invoked, those
    still queued excepted; operations whose [perform] returned an error
    contribute nothing.  When the store succeeds this registry and the new
    handle are the ones the actor holds. *)
Theorem stored_registry_is_replay (r0 : Registry) (evs : list Event) :
  NoDup (ids r0) ->
  Forall (fetches (fun r => r = r0)) evs ->
  exists w,
    run evs initial = Some (tt, w) /\
    forall reg applied,
      in_flight w = Some (reg, applied) ->
      exists done v,
        submissions false evs = done ++ (kind <$> operations (process w)) /\
        last (store_calls w) = Some (mutate v reg) /\
        id_set reg = replay done (id_set r0) /\
        forall v',
          exists w',
            stored (Ready (Some v')) w = Some (tt, w') /\
            registry (process w') = Some reg /\
            variable (process w') = Some v'.
Proof.
  intros Hnd Hf.
  destruct (run_Inv (replayed r0) (replayed_step r0) evs [] initial)
    as (w & Hrun & HI).
  { apply Inv_initial. }
  { eapply Forall_impl; [exact Hf|]. intros [|[]| |]; simpl; try done.
    intros ->. by split. }
  exists w. split; [done|]. intros reg applied Hfl.
  unfold Inv, quiet in HI. rewrite Hfl in HI. simpl in HI.
  destruct (recovered (process w)) as [[|[]|msg|]|] eqn:Hrec;
    [exfalso; clear -HI; naive_solver | |
     exfalso; clear -HI; naive_solver ..].
  destruct HI as (_ & r & v & Hreg & Hvar & HI).
  destruct (error (process w)) as [e|] eqn:Herr; [by destruct HI|].
  destruct HI as (Hupd & -> & Hlast & done & HS & Hc).
  change (submissions false evs = done ++ (kind <$> applied)
            ++ (kind <$> operations (process w))) in HS.
  exists (done ++ (kind <$> applied)), v. repeat split.
  - by rewrite HS, app_assoc.
  - done.
  - by destruct (replayed_step r0 r done applied Hc).
  - intros v'.
    destruct (stored_success w (batch r applied) applied v' Hfl Herr)
      as (w' & ? & _ & ? & ? & _).
    by exists w'.
Qed.

(** A recovered registry that already holds [pv1]: the registry stored by
    the first batch holds [pv1] as well, which the replay of the
    submitted operations against the empty set does not yield. *)
Lemma replay_against_empty_set_fails :
  let evs := [EvRecover; EvFetched (Ready (handle 0 registry_pv1));
              EvApply (admit_at 1 pv2)] in
  exists w reg applied,
    run evs initial = Some (tt, w) /\
    in_flight w = Some (reg, applied) /\
    operations (process w) = [] /\
    submissions false evs = [Admit pv2] /\
    id_set reg ≠ replay (submissions false evs) ∅.
Proof.
  eexists _, _, _. split; [vm_compute; reflexivity|].
  split; [reflexivity|]. split; [reflexivity|]. split; [reflexivity|].
  intros Heq.
  apply (f_equal (fun s => bool_decide (pv1 ∈ s))) in Heq.
  vm_compute in Heq. discriminate.
Qed.

(** ** The completion of the operations of a batch *)

Lemma batch_skip (r : Registry) (l1 l2 : list Operation) (op : Operation) :
  isError (fst (perform (kind op) (batch r l1))) = true ->
  batch r (l1 ++ op :: l2) = batch r (l1 ++ l2).
Proof.
  intros Herr. rewrite !batch_app.
  change (batch (batch r l1) (op :: l2))
    with (batch (snd (perform (kind op) (batch r l1))) l2).
  by rewrite perform_error.
Qed.

(** C4 (as amended). For every operation of a batch whose commit
    succeeds, the promise is set and never failed: the future resolves to
    true if [perform] changed the registry and to false if [perform]
    returned an error (a domain rejection such as admitting an identity
    already present). *)
Theorem commit_resolves_with_outcome (w : World) (r : Registry)
  (v v' : Variable_Registry) (ops arrivals : list Operation) :
  recovered (process w) = Some (Ready tt) ->
  updating (process w) = false ->
  error (process w) = None ->
  registry (process w) = Some r ->
  variable (process w) = Some v ->
  operations (process w) = ops ->
  ops ≠ [] ->
  NoDup (address <$> ops) ->
  (forall o, o ∈ ops -> future_of w o = Pending) ->
  exists w1 w2 w3,
    update w = Some (tt, w1) /\
    run (EvApply <$> arrivals) w1 = Some (tt, w2) /\
    stored (Ready (Some v')) w2 = Some (tt, w3) /\
    forall l1 o l2,
      ops = l1 ++ o :: l2 ->
      (snd (perform (kind o) (batch r l1)) ≠ batch r l1 ->
       future_of w3 o = Ready true) /\
      (isError (fst (perform (kind o) (batch r l1))) = true ->
       future_of w3 o = Ready false) /\
      (exists b, future_of w3 o = Ready b).
Proof.
  intros Hrec Hupd Herr Hreg Hvar Hops Hne Hnd Hpending.
  destruct (commit_signals w r v v' ops arrivals)
    as (w1 & w2 & w3 & H1 & _ & _ & _ & H2 & H3 & _ & _ & Hfut); try done.
  exists w1, w2, w3. repeat split; try done.
  - intros Hmut. rewrite (Hfut l1 o l2) by done.
    apply perform_mutates in Hmut. by rewrite Hmut.
  - intros Hrej. rewrite (Hfut l1 o l2) by done. by rewrite Hrej.
  - eexists. by apply (Hfut l1 o l2).
Qed.

(** Admitting [pv1] a second time is a domain rejection, and the commit of
    its batch succeeds: the future resolves to false, it is not failed. *)
Lemma duplicate_admission_resolves_false :
  let second := admit_at 2 pv1 in
  let evs := [EvRecover; EvFetched (Ready (handle 0 empty_registry));
              EvApply (admit_at 1 pv1);
              EvStored (Ready (Some (handle 1 registry_pv1)));
              EvApply second;
              EvStored (Ready (Some (handle 2 registry_pv1)))] in
  exists w,
    run evs initial = Some (tt, w) /\
    fst (perform (kind second) registry_pv1)
    = Error "Resource provider already admitted" /\
    registry (process w) = Some registry_pv1 /\
    future_of w second = Ready false /\
    forall msg, future_of w second ≠ Failed msg.
Proof.
  eexists. split; [vm_compute; reflexivity|].
  split; [reflexivity|]. split; [reflexivity|].
  split; [vm_compute; reflexivity|].
  intros msg. vm_compute. discriminate.
Qed.

(** C5. When the store call of a batch fails, is discarded, or returns no
    updated handle, every operation of the batch is failed with
    "Failed to update registry: <cause>", the cause being the failure
    message, "discarded" or "version mismatch", and the same message
    becomes the error of the actor. *)
Theorem store_failure_fails_batch (w : World) (reg : Registry)
  (applied : list Operation) (store : Future (option Variable_Registry))
  (cause : string) :
  in_flight w = Some (reg, applied) ->
  (forall o, o ∈ applied -> future_of w o = Pending) ->
  store = Failed cause \/
  (store = Discarded /\ cause = "discarded") \/
  (store = Ready None /\ cause = "version mismatch") ->
  exists w',
    stored store w = Some (tt, w') /\
    error (process w') = Some ("Failed to update registry: " +:+ cause) /\
    forall o, o ∈ applied ->
      future_of w' o = Failed ("Failed to update registry: " +:+ cause).
Proof.
  intros Hfl Hpending Hstore.
  assert (Hmsg : failure_message store
                 = Some ("Failed to update registry: " +:+ cause)).
  { destruct Hstore as [->|[[-> ->]|[-> ->]]]; reflexivity. }
  destruct (stored_failure w reg applied store _ Hfl Hmsg)
    as (objs' & Hrun & Hobj).
  eexists. split; [exact Hrun|]. split; [reflexivity|].
  intros o Ho. unfold future_of. simpl. rewrite Hobj.
  rewrite decide_True by (by apply list_elem_of_fmap_2).
  simpl. specialize (Hpending o Ho). unfold future_of in Hpending.
  by rewrite Hpending.
Qed.

(** C10. When the store call of a batch fails, is discarded or reports a
    version conflict, the registry and the handle the actor holds stay as
    they were before the batch, and the error is recorded; a successful
    store installs the new snapshot and the new handle. *)
Theorem snapshot_installed_on_success_only (w : World) (reg : Registry)
  (applied : list Operation) :
  in_flight w = Some (reg, applied) ->
  (forall store,
      (exists failure, store = Failed failure) \/ store = Discarded \/
      store = Ready None ->
      exists w',
        stored store w = Some (tt, w') /\
        registry (process w') = registry (process w) /\
        variable (process w') = variable (process w) /\
        recovered (process w') = recovered (process w) /\
        operations (process w') = operations (process w) /\
        store_calls w' = store_calls w /\
        error (process w') = failure_message store /\
        is_Some (error (process w'))) /\
  (error (process w) = None ->
   forall v',
     exists w',
       stored (Ready (Some v')) w = Some (tt, w') /\
       registry (process w') = Some reg /\
       variable (process w') = Some v' /\
       error (process w') = None).
Proof.
  intros Hfl. split.
  - intros store Hstore.
    assert (Hmsg : exists m, failure_message store = Some m).
    { destruct Hstore as [[f ->]|[->| ->]]; eexists; reflexivity. }
    destruct Hmsg as [m Hmsg].
    destruct (stored_failure w reg applied store m Hfl Hmsg)
      as (objs' & Hrun & _).
    eexists. split; [exact Hrun|]. simpl. rewrite Hmsg.
    destruct w as [[]]. simpl. repeat split; eauto.
  - intros Herr v'.
    destruct (stored_success w reg applied v' Hfl Herr)
      as (w' & ? & _ & ? & ? & ? & _).
    by exists w'.
Qed.

(** C9. An operation whose [perform] returns an error does not abort its
    batch: the whole queue is performed in arrival order on the copy, one
    store call is issued for the resulting snapshot, which is the one the
    batch would produce without the failing operation, and after the
    commit the failing operation resolves to false while every other
    operation of the batch resolves as it would without it. *)
Theorem failing_operation_does_not_abort_batch (w : World) (r : Registry)
  (v v' : Variable_Registry) (l1 l2 arrivals : list Operation)
  (failing : Operation) :
  recovered (process w) = Some (Ready tt) ->
  updating (process w) = false ->
  error (process w) = None ->
  registry (process w) = Some r ->
  variable (process w) = Some v ->
  operations (process w) = l1 ++ failing :: l2 ->
  NoDup (address <$> l1 ++ failing :: l2) ->
  (forall o, o ∈ l1 ++ failing :: l2 -> future_of w o = Pending) ->
  isError (fst (perform (kind failing) (batch r l1))) = true ->
  exists w1 w2 w3,
    update w = Some (tt, w1) /\
    in_flight w1 = Some (batch r (l1 ++ l2), l1 ++ failing :: l2) /\
    store_calls w1 = store_calls w ++ [mutate v (batch r (l1 ++ l2))] /\
    operations (process w1) = [] /\
    run (EvApply <$> arrivals) w1 = Some (tt, w2) /\
    stored (Ready (Some v')) w2 = Some (tt, w3) /\
    registry (process w3) = Some (batch r (l1 ++ l2)) /\
    future_of w3 failing = Ready false /\
    (forall k1 o k2,
        l1 = k1 ++ o :: k2 ->
        future_of w3 o
        = Ready (negb (isError (fst (perform (kind o) (batch r k1)))))) /\
    (forall k1 o k2,
        l2 = k1 ++ o :: k2 ->
        future_of w3 o
        = Ready (negb (isError (fst (perform (kind o)
                                       (batch r (l1 ++ k1))))))).
Proof.
  intros Hrec Hupd Herr Hreg Hvar Hops Hnd Hpending Hfail.
  destruct (commit_signals w r v v' (l1 ++ failing :: l2) arrivals)
    as (w1 & w2 & w3 & H1 & Hfl & Hcalls & Hq & H2 & H3 & Hreg3 & _ & Hfut);
    try done.
  { by destruct l1. }
  rewrite (batch_skip r l1 l2 failing Hfail) in *.
  exists w1, w2, w3. repeat split; try done.
  - rewrite (Hfut l1 failing l2 eq_refl). by rewrite Hfail.
  - intros k1 o k2 ->.
    apply (Hfut k1 o (k2 ++ failing :: l2)). by rewrite <- app_assoc.
  - intros k1 o k2 ->.
    rewrite (Hfut (l1 ++ failing :: k1) o k2).
    + by rewrite (batch_skip r l1 k1 failing Hfail).
    + by rewrite <- app_assoc.
Qed.

(** ** Applying before and after recovery *)

(** An [apply] in the recovered, idle actor followed by a successful
    store. *)
Lemma apply_then_commit (w : World) (r : Registry) (v v' : Variable_Registry)
  (operation : Operation) :
  recovered (process w) = Some (Ready tt) ->
  updating (process w) = false ->
  error (process w) = None ->
  registry (process w) = Some r ->
  variable (process w) = Some v ->
  operations (process w) = [] ->
  future_of w operation = Pending ->
  exists w1 w2,
    apply operation w = Some (OperationFuture operation, w1) /\
    in_flight w1 = Some (snd (perform (kind operation) r), [operation]) /\
    stored (Ready (Some v')) w1 = Some (tt, w2) /\
    registry (process w2) = Some (snd (perform (kind operation) r)) /\
    variable (process w2) = Some v' /\
    future_of w2 operation
    = Ready (negb (isError (fst (perform (kind operation) r)))).
Proof.
  intros Hrec Hupd Herr Hreg Hvar Hops Hpending.
  destruct (commit_signals
              (with_process (set_operations [operation]) w) r v v'
              [operation] [])
    as (w1 & w2 & w3 & H1 & Hfl & _ & _ & H2 & H3 & Hreg3 & Hvar3 & Hfut);
    try (destruct w as [[]]; simpl in *; by subst).
  { apply NoDup_singleton. }
  { intros o Ho. apply list_elem_of_singleton in Ho as ->.
    by destruct w as [[]]. }
  simpl in H2. injection H2 as <-.
  exists w1, w3. repeat split; try done.
  - destruct w as [[rec reg var err oper upd] objs conts infl calls].
    simpl in *. subst. unfold apply, _apply, bind, read, write, ret.
    cbn -[update]. cbn -[update] in H1. by rewrite H1.
  - exact (Hfut [] operation [] eq_refl).
Qed.

(** C7 (as amended). An [apply] made before [recover] has been invoked
    fails at once with "Attempted to apply the operation before
    recovering" and changes nothing.  An [apply] made after [recover] was
    invoked and before it resolves is not failed but chained on the
    recovery, and it is processed once recovery resolves: when the fetch
    completes the chained operations are handed to [_apply] in the order
    of their submission, the first one forming the batch that is stored
    at once and the others waiting in the queue, and with a successful
    store the future of a chained operation resolves to the outcome of
    its [perform].  Once recovery has resolved, applying the operation
    that was turned down before is processed normally: with a successful
    store its future resolves to the outcome of its [perform]. *)
Theorem apply_before_and_after_recovery (operation : Operation) :
  (forall w,
      recovered (process w) = None ->
      apply operation w
      = Some (Failure "Attempted to apply the operation before recovering",
              w)) /\
  (forall w,
      recovered (process w) = Some Pending ->
      apply operation w
      = Some (Chained,
              with_continuations (continuations w ++ [operation]) w)) /\
  (forall w v0,
      recovered (process w) = Some Pending ->
      error (process w) = None ->
      operations (process w) = [] ->
      updating (process w) = false ->
      exists w1 w2 first rest,
        apply operation w = Some (Chained, w1) /\
        fetched (Ready v0) w1 = Some (tt, w2) /\
        continuations w ++ [operation] = first :: rest /\
        recovered (process w2) = Some (Ready tt) /\
        registry (process w2) = Some (get v0) /\
        variable (process w2) = Some v0 /\
        error (process w2) = None /\
        continuations w2 = [] /\
        in_flight w2 = Some (batch (get v0) [first], [first]) /\
        operations (process w2) = rest /\
        store_calls w2 = store_calls w ++ [mutate v0 (batch (get v0) [first])])
  /\
  (forall v0 v',
      exists w,
        run [EvRecover; EvApply operation; EvFetched (Ready v0);
             EvStored (Ready (Some v'))] initial
        = Some (tt, w) /\
        registry (process w) = Some (snd (perform (kind operation) (get v0))) /\
        variable (process w) = Some v' /\
        future_of w operation
        = Ready (negb (isError (fst (perform (kind operation) (get v0)))))) /\
  (forall v0 v',
      exists w,
        run [EvApply operation; EvRecover; EvFetched (Ready v0);
             EvApply operation; EvStored (Ready (Some v'))] initial
        = Some (tt, w) /\
        registry (process w) = Some (snd (perform (kind operation) (get v0))) /\
        variable (process w) = Some v' /\
        future_of w operation
        = Ready (negb (isError (fst (perform (kind operation) (get v0)))))).
Proof.
  split; [|split; [|split; [|split]]].
  - intros [[rec reg var err oper upd] objs conts infl calls]. simpl.
    by intros ->.
  - intros [[rec reg var err oper upd] objs conts infl calls]. simpl.
    by intros ->.
  - intros [[rec reg var err oper upd] objs conts infl calls] v0. simpl.
    intros -> -> -> ->.
    assert (Hq : exists first rest, conts ++ [operation] = first :: rest).
    { destruct conts; simpl; eauto. }
    destruct Hq as (first & rest & Hq).
    set (w1 := {| process := {| recovered := Some Pending; registry := reg;
                                variable := var; error := None;
                                operations := []; updating := false |};
                  objects := objs; continuations := conts ++ [operation];
                  in_flight := infl; store_calls := calls |}).
    assert (Hf : exists objs',
               fetched (Ready v0) w1
               = Some (tt,
                       {| process := {| recovered := Some (Ready tt);
                                        registry := Some (get v0);
                                        variable := Some v0; error := None;
                                        operations := rest;
                                        updating := true |};
                          objects := objs'; continuations := [];
                          in_flight := Some (batch (get v0) [first], [first]);
                          store_calls :=
                            calls ++ [mutate v0 (batch (get v0) [first])] |})).
    { subst w1. unfold fetched, bind, read, write.
      cbn -[run_continuations _apply batch]. rewrite Hq.
      cbn [run_continuations]. unfold bind at 1.
      match goal with |- context [_apply ?o ?W] =>
        destruct (_apply_idle o W (get v0) v0) as (objs' & ->); try done end.
      rewrite run_continuations_updating by done.
      exists objs'. reflexivity. }
    destruct Hf as (objs' & Hf).
    eexists w1, _, first, rest. split; [reflexivity|].
    split; [exact Hf|]. simpl. repeat split; done.
  - intros v0 v'.
    destruct (apply_then_commit (recovered_world v0 []) (get v0) v0 v'
                operation)
      as (w1 & w2 & H1 & _ & H2 & Hreg & Hvar & Hfut); try done.
    exists w2. repeat split; try done.
    change (apply operation (recovered_world v0 []))
      with (_apply operation (recovered_world v0 [])) in H1.
    change (run [EvRecover; EvApply operation; EvFetched (Ready v0);
                 EvStored (Ready (Some v'))] initial)
      with (bind (bind (_apply operation) (fun _ => ret tt))
              (fun _ => bind (stored (Ready (Some v'))) (fun _ => ret tt))
              (recovered_world v0 [])).
    unfold bind, ret. rewrite H1, H2. reflexivity.
  - intros v0 v'.
    destruct (apply_then_commit (recovered_world v0 []) (get v0) v0 v'
                operation)
      as (w1 & w2 & H1 & _ & H2 & Hreg & Hvar & Hfut); try done.
    exists w2. repeat split; try done.
    change (run [EvApply operation; EvRecover; EvFetched (Ready v0);
                 EvApply operation; EvStored (Ready (Some v'))] initial)
      with (bind (apply operation)
              (fun _ => bind (stored (Ready (Some v'))) (fun _ => ret tt))
              (recovered_world v0 [])).
    unfold bind. rewrite H1, H2. reflexivity.
Qed.

(** Between the invocation of [recover] and its completion an [apply]
    does not fail: it is chained, and it is processed once the fetch has
    completed. *)
Lemma apply_while_recovering_is_chained :
  let operation := admit_at 1 pv1 in
  exists w,
    run [EvRecover] initial = Some (tt, w) /\
    recovered (process w) = Some Pending /\
    apply operation w = Some (Chained, with_continuations [operation] w) /\
    fst <$> apply operation w
    ≠ Some (Failure "Attempted to apply the operation before recovering") /\
    exists w',
      run [EvRecover; EvApply operation;
           EvFetched (Ready (handle 0 empty_registry));
           EvStored (Ready (Some (handle 1 registry_pv1)))] initial
      = Some (tt, w') /\
      future_of w' operation = Ready true.
Proof.
  eexists. split; [reflexivity|]. split; [reflexivity|].
  split; [reflexivity|]. split; [discriminate|].
  eexists. split; [vm_compute; reflexivity|]. vm_compute. reflexivity.
Qed.

(** A store that did not succeed leaves the queue alone: the operations
    that arrived while it was in flight stay queued, and the promise of an
    operation outside the failed batch is not touched. *)
Lemma store_failure_leaves_queue (w : World) (reg : Registry)
  (applied : list Operation) (store : Future (option Variable_Registry))
  (message : string) :
  in_flight w = Some (reg, applied) ->
  failure_message store = Some message ->
  exists w',
    stored store w = Some (tt, w') /\
    error (process w') = Some message /\
    operations (process w') = operations (process w) /\
    in_flight w' = None /\
    store_calls w' = store_calls w /\
    forall o, address o ∉ address <$> applied ->
              future_of w' o = future_of w o.
Proof.
  intros Hfl Hmsg.
  destruct (stored_failure w reg applied store message Hfl Hmsg)
    as (objs' & Hrun & Hobj).
  eexists. split; [exact Hrun|]. destruct w as [[]]. simpl.
  repeat split. intros o Ho. unfold future_of. simpl. rewrite Hobj.
  by rewrite decide_False.
Qed.

(** C6, at the input on which the code departs from it. Two operations
    are submitted; the store of the first batch reports a version
    conflict while the second operation waits in the queue.  The first
    operation is failed and the error is recorded, no store call is
    issued any more, and a later [apply] is answered with the error; but
    the queued operation stays in the queue with its promise pending,
    whatever happens afterwards. *)
Theorem queued_operation_left_pending :
  let first := admit_at 1 pv1 in
  let second := admit_at 2 pv2 in
  let message := "Failed to update registry: version mismatch"%string in
  exists w,
    run [EvRecover; EvFetched (Ready (handle 0 empty_registry));
         EvApply first; EvApply second; EvStored (Ready None)] initial
    = Some (tt, w) /\
    error (process w) = Some message /\
    future_of w first = Failed message /\
    operations (process w) = [second] /\
    future_of w second = Pending /\
    (forall later, apply later w = Some (Failure message, w)) /\
    forall evs,
      exists w',
        run evs w = Some (tt, w') /\
        store_calls w' = store_calls w /\
        operations (process w') = [second] /\
        future_of w' second = Pending.
Proof.
  intros first second message.
  destruct (run_Inv (fun _ _ => True) (fun _ _ _ _ => I)
              [EvRecover; EvFetched (Ready (handle 0 empty_registry));
               EvApply first; EvApply second; EvStored (Ready None)]
              [] initial) as (w & Hrun & HI).
  { apply Inv_initial. }
  { repeat constructor. }
  exists w. split; [done|].
  vm_compute in Hrun. injection Hrun as Hw.
  assert (Herr : error (process w) = Some message) by (by subst w).
  split; [done|]. split; [by subst w|]. split; [by subst w|].
  split; [by subst w|]. split.
  - intros later. by destruct (failed_is_frozen _ _ w message HI Herr).
  - intros evs. exists w.
    rewrite (failed_stays_failed _ _ w message evs HI Herr).
    repeat split; by subst w.
Qed.

(** ** The properties on the concrete scenarios *)

Lemma admit_perform_spec_witness :
  AdmitResourceProvider.perform pv1 registry_pv1
  = (Error "Resource provider already admitted", registry_pv1) /\
  exists rp, id rp = pv2 /\
    AdmitResourceProvider.perform pv2 registry_pv1
    = (Value true,
       {| resource_providers := resource_providers registry_pv1 ++ [rp] |}).
Proof.
  split.
  - apply (proj1 (admit_perform_spec registry_pv1 pv1)).
    exists {| id := pv1; metadata := "" |}. split; [left | reflexivity].
  - apply (proj2 (admit_perform_spec registry_pv1 pv2)).
    intros (rp & Hin & Hid). apply list_elem_of_singleton in Hin.
    subst rp. discriminate Hid.
Defined.

Lemma remove_perform_spec_witness :
  RemoveResourceProvider.perform pv2 registry_pv1
  = (Error "Attempted to remove an unknown resource provider", registry_pv1)
  /\
  exists l1 rp l2,
    resource_providers registry_pv1 = l1 ++ rp :: l2 /\ id rp = pv1 /\
    (forall x, x ∈ l1 -> id x ≠ pv1) /\
    RemoveResourceProvider.perform pv1 registry_pv1
    = (Value true, {| resource_providers := l1 ++ l2 |}).
Proof.
  split.
  - apply (proj1 (remove_perform_spec registry_pv1 pv2)).
    intros (rp & Hin & Hid). apply list_elem_of_singleton in Hin.
    subst rp. discriminate Hid.
  - apply (proj2 (remove_perform_spec registry_pv1 pv1)).
    exists {| id := pv1; metadata := "" |}. split; [left | reflexivity].
Defined.

Lemma perform_preserves_uniqueness_witness :
  NoDup (ids registry_pv1) /\
  NoDup (ids (snd (AdmitResourceProvider.perform pv2 registry_pv1))) /\
  NoDup (ids (snd (RemoveResourceProvider.perform pv1 registry_pv1))).
Proof.
  assert (H : NoDup (ids registry_pv1)) by apply NoDup_singleton.
  split; [exact H|]. split.
  - exact (proj1 (perform_preserves_uniqueness registry_pv1 pv2 H)).
  - exact (proj2 (perform_preserves_uniqueness registry_pv1 pv1 H)).
Defined.

Lemma stored_registry_is_replay_witness :
  let evs := [EvRecover; EvFetched (Ready (handle 0 empty_registry));
              EvApply (admit_at 1 pv1); EvApply (admit_at 2 pv1);
              EvApply (remove_at 3 pv2)] in
  exists w,
    run evs initial = Some (tt, w) /\
    forall reg applied,
      in_flight w = Some (reg, applied) ->
      exists done v,
        submissions false evs = done ++ (kind <$> operations (process w)) /\
        last (store_calls w) = Some (mutate v reg) /\
        id_set reg = replay done (id_set empty_registry) /\
        forall v',
          exists w',
            stored (Ready (Some v')) w = Some (tt, w') /\
            registry (process w') = Some reg /\
            variable (process w') = Some v'.
Proof.
  intros evs. apply (stored_registry_is_replay empty_registry evs).
  - apply NoDup_nil_2.
  - repeat constructor.
Defined.

Lemma commit_resolves_with_outcome_witness :
  let ops := [admit_at 1 pv1; admit_at 2 pv1] in
  let w := recovered_world (handle 0 empty_registry) ops in
  exists w1 w2 w3,
    update w = Some (tt, w1) /\
    run (EvApply <$> [remove_at 3 pv1]) w1 = Some (tt, w2) /\
    stored (Ready (Some (handle 1 registry_pv1))) w2 = Some (tt, w3) /\
    forall l1 o l2,
      ops = l1 ++ o :: l2 ->
      (snd (perform (kind o) (batch empty_registry l1))
       ≠ batch empty_registry l1 ->
       future_of w3 o = Ready true) /\
      (isError (fst (perform (kind o) (batch empty_registry l1))) = true ->
       future_of w3 o = Ready false) /\
      (exists b, future_of w3 o = Ready b).
Proof.
  intros ops w.
  apply (commit_resolves_with_outcome w empty_registry
           (handle 0 empty_registry) (handle 1 registry_pv1) ops
           [remove_at 3 pv1]); try reflexivity.
  - discriminate.
  - apply (bool_decide_unpack _). vm_compute. exact I.
Defined.

Lemma store_failure_fails_batch_witness :
  let applied := [admit_at 1 pv1; admit_at 2 pv2] in
  let w := updating_world (handle 0 empty_registry) applied in
  exists w',
    stored (Ready None) w = Some (tt, w') /\
    error (process w')
    = Some ("Failed to update registry: " +:+ "version mismatch") /\
    forall o, o ∈ applied ->
      future_of w' o
      = Failed ("Failed to update registry: " +:+ "version mismatch").
Proof.
  intros applied w.
  apply (store_failure_fails_batch w (batch empty_registry applied) applied
           (Ready None) "version mismatch"); try reflexivity.
  right. right. split; reflexivity.
Defined.

Lemma snapshot_installed_on_success_only_witness :
  let applied := [admit_at 1 pv1] in
  let w := updating_world (handle 0 empty_registry) applied in
  (exists w',
      stored Discarded w = Some (tt, w') /\
      registry (process w') = registry (process w) /\
      variable (process w') = variable (process w) /\
      recovered (process w') = recovered (process w) /\
      operations (process w') = operations (process w) /\
      store_calls w' = store_calls w /\
      error (process w') = failure_message Discarded /\
      is_Some (error (process w'))) /\
  (exists w',
      stored (Ready (Some (handle 1 registry_pv1))) w = Some (tt, w') /\
      registry (process w') = Some (batch empty_registry applied) /\
      variable (process w') = Some (handle 1 registry_pv1) /\
      error (process w') = None).
Proof.
  intros applied w.
  destruct (snapshot_installed_on_success_only w
              (batch empty_registry applied) applied eq_refl) as [Hf Hs].
  split.
  - apply Hf. right. left. reflexivity.
  - apply Hs. reflexivity.
Defined.

Lemma failing_operation_does_not_abort_batch_witness :
  let l1 := [admit_at 1 pv1] in
  let failing := admit_at 2 pv1 in
  let l2 := [admit_at 3 pv2] in
  let w := recovered_world (handle 0 empty_registry) (l1 ++ failing :: l2) in
  exists w1 w2 w3,
    update w = Some (tt, w1) /\
    in_flight w1
    = Some (batch empty_registry (l1 ++ l2), l1 ++ failing :: l2) /\
    store_calls w1
    = store_calls w
        ++ [mutate (handle 0 empty_registry)
              (batch empty_registry (l1 ++ l2))] /\
    operations (process w1) = [] /\
    run (EvApply <$> []) w1 = Some (tt, w2) /\
    stored (Ready (Some (handle 1 empty_registry))) w2 = Some (tt, w3) /\
    registry (process w3) = Some (batch empty_registry (l1 ++ l2)) /\
    future_of w3 failing = Ready false /\
    (forall k1 o k2,
        l1 = k1 ++ o :: k2 ->
        future_of w3 o
        = Ready (negb (isError (fst (perform (kind o)
                                       (batch empty_registry k1)))))) /\
    (forall k1 o k2,
        l2 = k1 ++ o :: k2 ->
        future_of w3 o
        = Ready (negb (isError (fst (perform (kind o)
                                       (batch empty_registry (l1 ++ k1))))))).
Proof.
  intros l1 failing l2 w.
  apply (failing_operation_does_not_abort_batch w empty_registry
           (handle 0 empty_registry) (handle 1 empty_registry) l1 l2 []
           failing); try reflexivity.
  apply (bool_decide_unpack _). vm_compute. exact I.
Defined.

Lemma apply_before_and_after_recovery_witness :
  let operation := admit_at 1 pv1 in
  let recovering := with_process (set_recovered (Some Pending)) initial in
  apply operation initial
  = Some (Failure "Attempted to apply the operation before recovering",
          initial) /\
  (exists w1 w2 first rest,
      apply operation recovering = Some (Chained, w1) /\
      fetched (Ready (handle 0 empty_registry)) w1 = Some (tt, w2) /\
      continuations recovering ++ [operation] = first :: rest /\
      recovered (process w2) = Some (Ready tt) /\
      registry (process w2) = Some (get (handle 0 empty_registry)) /\
      variable (process w2) = Some (handle 0 empty_registry) /\
      error (process w2) = None /\
      continuations w2 = [] /\
      in_flight w2
      = Some (batch (get (handle 0 empty_registry)) [first], [first]) /\
      operations (process w2) = rest /\
      store_calls w2
      = store_calls recovering
          ++ [mutate (handle 0 empty_registry)
                (batch (get (handle 0 empty_registry)) [first])]) /\
  (exists w,
      run [EvRecover; EvApply operation;
           EvFetched (Ready (handle 0 empty_registry));
           EvStored (Ready (Some (handle 1 registry_pv1)))] initial
      = Some (tt, w) /\
      registry (process w)
      = Some (snd (perform (kind operation) empty_registry)) /\
      variable (process w) = Some (handle 1 registry_pv1) /\
      future_of w operation
      = Ready (negb (isError (fst (perform (kind operation)
                                     empty_registry))))) /\
  exists w,
    run [EvApply operation; EvRecover;
         EvFetched (Ready (handle 0 empty_registry));
         EvApply operation; EvStored (Ready (Some (handle 1 registry_pv1)))]
      initial
    = Some (tt, w) /\
    registry (process w)
    = Some (snd (perform (kind operation) empty_registry)) /\
    variable (process w) = Some (handle 1 registry_pv1) /\
    future_of w operation
    = Ready (negb (isError (fst (perform (kind operation) empty_registry)))).
Proof.
  intros operation recovering.
  destruct (apply_before_and_after_recovery operation)
    as (Hbefore & _ & Hchained & Hreleased & Hafter).
  split; [|split; [|split]].
  - apply Hbefore. reflexivity.
  - apply (Hchained recovering (handle 0 empty_registry)); reflexivity.
  - apply (Hreleased (handle 0 empty_registry) (handle 1 registry_pv1)).
  - apply (Hafter (handle 0 empty_registry) (handle 1 registry_pv1)).
Defined.

(** * Further properties of the code *)

(** ** The two operations, composed *)

Lemma find_if_app_fresh {A} (p : A -> bool) (l l' : list A) :
  Forall (fun x => p x = false) l ->
  find_if p (l ++ l') = length l + find_if p l'.
Proof.
  induction 1 as [|x l Hx _ IH]; simpl; [done|]. by rewrite Hx, IH.
Qed.

Lemma registry_eta (r : Registry) :
  {| resource_providers := resource_providers r |} = r.
Proof. by destruct r. Qed.

(** X1. Admitting an identity the registry does not hold and then
    removing it gives back the registry exactly, and both operations
    report a mutation. *)
Theorem admit_then_remove_restores (r : Registry) (i : ResourceProviderID) :
  i ∉ ids r ->
  fst (AdmitResourceProvider.perform i r) = Value true /\
  RemoveResourceProvider.perform i (snd (AdmitResourceProvider.perform i r))
  = (Value true, r).
Proof.
  intros Hfresh. rewrite admit_fresh by done. split; [done|]. simpl.
  unfold RemoveResourceProvider.perform. simpl.
  assert (Hpos : find_if (fun rp => bool_decide (id rp = i))
                   (resource_providers r ++ [{| id := i; metadata := "" |}])
                 = length (resource_providers r)).
  { rewrite find_if_app_fresh by (by apply (no_match_iff i)).
    simpl. rewrite bool_decide_eq_true_2 by done. lia. }
  rewrite Hpos, length_app. simpl.
  destruct (decide _) as [Heq|_]; [lia|].
  unfold erase. simpl. rewrite delete_middle, app_nil_r.
  by rewrite registry_eta.
Qed.

Lemma admit_then_remove_restores_witness :
  fst (AdmitResourceProvider.perform pv2 registry_pv1) = Value true /\
  RemoveResourceProvider.perform pv2
    (snd (AdmitResourceProvider.perform pv2 registry_pv1))
  = (Value true, registry_pv1).
Proof.
  apply (admit_then_remove_restores registry_pv1 pv2).
  intros Hin. apply list_elem_of_singleton in Hin. discriminate Hin.
Defined.

Lemma filter_id_fresh (i : ResourceProviderID) (l : list ResourceProvider) :
  (i ∉ id <$> l) -> filter (fun rp => id rp = i) l = [].
Proof.
  induction l as [|x l IH]; [done|]. rewrite fmap_cons, not_elem_of_cons.
  intros [Hne Hl]. rewrite filter_cons_False by done. by apply IH.
Qed.

Lemma count_id_pos (i : ResourceProviderID) (r : Registry) :
  i ∈ ids r <-> 0 < count_id i r.
Proof.
  unfold count_id, ids. destruct r as [l]. simpl.
  induction l as [|x l IH]; simpl.
  - rewrite elem_of_nil. lia.
  - rewrite elem_of_cons. destruct (decide (id x = i)) as [Heq|Hne].
    + rewrite filter_cons_True by done. simpl. split; [lia | by left].
    + rewrite filter_cons_False by done. rewrite <- IH.
      split; [intros [?|?]; [congruence | done] | by right].
Qed.

(** X2. What the two operations do to the records of their identity:
    an admission leaves their number as it is when there is one and makes
    it one otherwise; a removal takes exactly one of them away when there
    is one.  In particular a removal leaves the identity in a registry
    that held it twice. *)
Theorem perform_counts (r : Registry) (i : ResourceProviderID) :
  count_id i (snd (AdmitResourceProvider.perform i r))
  = Nat.max 1 (count_id i r) /\
  count_id i (snd (RemoveResourceProvider.perform i r)) = count_id i r - 1.
Proof.
  split.
  - destruct (decide (i ∈ ids r)) as [Hin|Hin].
    + rewrite admit_known by done. simpl.
      apply count_id_pos in Hin. lia.
    + rewrite admit_fresh by done. unfold count_id. simpl.
      rewrite filter_app, filter_id_fresh by done. simpl.
      rewrite filter_cons_True by done. simpl. lia.
  - destruct (decide (i ∈ ids r)) as [Hin|Hin].
    + destruct (remove_known i r Hin) as (l1 & rp & l2 & Hl & Hrp & Hl1 & ->).
      unfold count_id. simpl. rewrite Hl, !filter_app.
      rewrite filter_cons_True by done. rewrite !length_app. simpl. lia.
    + rewrite remove_unknown by done. simpl.
      unfold count_id. rewrite filter_id_fresh by done. done.
Qed.

(** X3. Neither operation touches the records of another identity: they
    stay, unchanged and in the same order, whether the operation mutates
    the registry or is rejected. *)
Theorem perform_keeps_others (k : OperationKind) (r : Registry)
  (i : ResourceProviderID) :
  k = Admit i \/ k = Remove i ->
  others i (snd (perform k r)) = others i r.
Proof.
  unfold others.
  intros [-> | ->]; simpl; destruct (decide (i ∈ ids r)) as [Hin|Hin].
  - by rewrite admit_known.
  - rewrite admit_fresh by done. simpl. rewrite filter_app.
    rewrite (filter_cons_False _ {| id := i; metadata := "" |}) by naive_solver.
    by rewrite filter_nil, app_nil_r.
  - destruct (remove_known i r Hin) as (l1 & rp & l2 & Hl & Hrp & Hl1 & ->).
    simpl. rewrite Hl, !filter_app.
    by rewrite (filter_cons_False _ rp) by naive_solver.
  - by rewrite remove_unknown.
Qed.

Lemma perform_keeps_others_witness :
  others pv1 (snd (perform (Remove pv1) registry_pv1)) = others pv1 registry_pv1
  /\ others pv1 (snd (perform (Admit pv2) registry_pv1))
     ≠ others pv1 registry_pv1.
Proof.
  split.
  - apply (perform_keeps_others (Remove pv1) registry_pv1 pv1). by right.
  - vm_compute. discriminate.
Defined.

(** X4. Repeating an operation is rejected: after an admission the
    identity is present and a second admission returns the "already
    admitted" error; after a removal from a registry without duplicate
    identities the identity is absent and a second removal returns the
    "unknown resource provider" error.  Neither repetition changes the
    registry. *)
Theorem repeated_operation_rejected (r : Registry) (i : ResourceProviderID) :
  (i ∈ ids (snd (AdmitResourceProvider.perform i r)) /\
   AdmitResourceProvider.perform i (snd (AdmitResourceProvider.perform i r))
   = (Error "Resource provider already admitted",
      snd (AdmitResourceProvider.perform i r))) /\
  (NoDup (ids r) ->
   (i ∉ ids (snd (RemoveResourceProvider.perform i r))) /\
   RemoveResourceProvider.perform i (snd (RemoveResourceProvider.perform i r))
   = (Error "Attempted to remove an unknown resource provider",
      snd (RemoveResourceProvider.perform i r))).
Proof.
  split.
  - assert (Hin : i ∈ ids (snd (AdmitResourceProvider.perform i r))).
    { destruct (decide (i ∈ ids r)) as [Hin|Hin].
      - by rewrite admit_known.
      - rewrite admit_fresh by done. unfold ids. simpl.
        rewrite fmap_app. apply elem_of_app. right. simpl. left. }
    split; [done | by apply admit_known].
  - intros Hnd.
    assert (Hout : i ∉ ids (snd (RemoveResourceProvider.perform i r))).
    { destruct (decide (i ∈ ids r)) as [Hin|Hin].
      - destruct (remove_known i r Hin)
          as (l1 & rp & l2 & Hl & Hrp & Hl1 & ->).
        unfold ids in *. simpl. rewrite Hl in Hnd.
        rewrite fmap_app, fmap_cons in Hnd.
        apply NoDup_app in Hnd as (_ & _ & Hnd).
        apply NoDup_cons in Hnd as [Hrest _]. rewrite Hrp in Hrest.
        rewrite fmap_app. by apply not_elem_of_app.
      - by rewrite remove_unknown. }
    split; [done | by apply remove_unknown].
Qed.

Lemma repeated_operation_rejected_witness :
  (pv1 ∉ ids (snd (RemoveResourceProvider.perform pv1 registry_pv1))) /\
  RemoveResourceProvider.perform pv1
    (snd (RemoveResourceProvider.perform pv1 registry_pv1))
  = (Error "Attempted to remove an unknown resource provider",
     snd (RemoveResourceProvider.perform pv1 registry_pv1)).
Proof.
  apply (proj2 (repeated_operation_rejected registry_pv1 pv1)).
  apply NoDup_singleton.
Defined.

(** ** The states a run reaches *)

Lemma run_app (evs1 evs2 : list Event) (w : World) :
  run (evs1 ++ evs2) w
  = match run evs1 w with
    | Some (_, w') => run evs2 w'
    | None => None
    end.
Proof.
  revert w. induction evs1 as [|ev evs1 IH]; intros w; [done|].
  simpl. unfold bind. destruct (deliver ev w) as [[[] w1]|]; [apply IH | done].
Qed.

Lemma reachable_Inv (evs : list Event) (w : World) :
  run evs initial = Some (tt, w) ->
  Inv (fun _ _ => True) (submissions false evs) w.
Proof.
  intros Hrun.
  destruct (run_Inv (fun _ _ => True) (fun _ _ _ _ => I) evs [] initial)
    as (w' & Hrun' & HI).
  - apply Inv_initial.
  - apply Forall_forall. intros [|[]| |] _; exact I.
  - rewrite Hrun in Hrun'. by injection Hrun' as <-.
Qed.

Lemma reachable_invoked (evs : list Event) (w : World) :
  run evs initial = Some (tt, w) ->
  invoked w = existsb is_recover evs.
Proof.
  assert (Hgen : forall evs S w0 w,
             Inv (fun _ _ => True) S w0 ->
             run evs w0 = Some (tt, w) ->
             invoked w = invoked w0 || existsb is_recover evs).
  { clear. induction evs as [|ev evs IH]; intros S w0 w HI Hrun.
    - simpl in *. injection Hrun as <-. by rewrite orb_false_r.
    - destruct (deliver_Inv (fun _ _ => True) (fun _ _ _ _ => I) ev S w0 HI)
        as (w1 & Hd & HI1 & Hinv); [by destruct ev as [|[]| |]|].
      simpl in Hrun. unfold bind in Hrun. rewrite Hd in Hrun.
      rewrite (IH _ w1 w HI1 Hrun), Hinv. simpl.
      destruct ev; simpl; try done.
      by rewrite orb_true_r. }
  intros Hrun. apply (Hgen evs [] initial w (Inv_initial _) Hrun).
Qed.

(** X5. Until [recover] is invoked the actor does nothing: every [apply]
    is turned down and every completion is ignored, so a run without a
    [recover] call leaves the actor exactly as it was; nothing is queued
    and nothing is stored. *)
Theorem nothing_happens_before_recover (w : World) (evs : list Event) :
  recovered (process w) = None ->
  in_flight w = None ->
  Forall (fun ev => is_recover ev = false) evs ->
  run evs w = Some (tt, w).
Proof.
  intros Hrec Hfl Hevs. induction Hevs as [|ev evs Hev _ IH]; [done|].
  simpl. unfold bind.
  assert (Hd : deliver ev w = Some (tt, w)).
  { destruct w as [[rec reg var err oper upd] objs conts infl calls].
    simpl in *. subst. by destruct ev as [|f|op|store]. }
  by rewrite Hd.
Qed.

Lemma nothing_happens_before_recover_witness :
  run [EvApply (admit_at 1 pv1); EvStored (Ready None);
       EvFetched (Ready (handle 0 registry_pv1)); EvApply (remove_at 2 pv1)]
    initial
  = Some (tt, initial).
Proof.
  apply (nothing_happens_before_recover initial); try reflexivity.
  repeat constructor.
Defined.

(** X6. [recover] is idempotent: once it has been invoked, a further call
    changes nothing, whatever state the actor is in; the run goes on as
    if the call had not been made. *)
Theorem recover_is_idempotent (evs1 evs2 : list Event) :
  existsb is_recover evs1 = true ->
  run (evs1 ++ EvRecover :: evs2) initial = run (evs1 ++ evs2) initial.
Proof.
  intros Hinv. rewrite !run_app.
  destruct (run evs1 initial) as [[[] w]|] eqn:Hrun; [|done].
  apply reachable_invoked in Hrun. rewrite Hinv in Hrun.
  assert (Hd : deliver EvRecover w = Some (tt, w)).
  { destruct w as [[rec reg var err oper upd] objs conts infl calls].
    unfold invoked in Hrun. simpl in *. by destruct rec. }
  cbn [run]. unfold bind at 1. by rewrite Hd.
Qed.

Lemma recover_is_idempotent_witness :
  run ([EvRecover; EvApply (admit_at 1 pv1)]
         ++ EvRecover :: [EvFetched (Ready (handle 0 empty_registry))])
    initial
  = run ([EvRecover; EvApply (admit_at 1 pv1)]
           ++ [EvFetched (Ready (handle 0 empty_registry))])
      initial.
Proof. apply recover_is_idempotent. reflexivity. Defined.

(** X7. A recovery that fails or is discarded is final: the actor holds
    nothing, every later event leaves it as it is, and every later
    [apply] is answered with the failure of the fetch (or with a
    discarded future), without the operation being performed. *)
Theorem failed_recovery_is_terminal (evs : list Event) (w : World)
  (f : Future unit) :
  run evs initial = Some (tt, w) ->
  recovered (process w) = Some f ->
  (exists msg, f = Failed msg) \/ f = Discarded ->
  (forall evs', run evs' w = Some (tt, w)) /\
  (forall operation,
      apply operation w
      = Some (match f with Failed msg => Failure msg | _ => Abandoned end,
              w)) /\
  error (process w) = None /\ operations (process w) = [] /\
  in_flight w = None.
Proof.
  intros Hrun Hrec Hf. apply reachable_Inv in Hrun.
  unfold Inv, quiet in Hrun. rewrite Hrec in Hrun.
  assert (Hq : error (process w) = None /\ operations (process w) = [] /\
               in_flight w = None).
  { destruct Hf as [[msg ->]| ->]; naive_solver. }
  destruct Hq as (Herr & Hops & Hfl).
  assert (Hd : forall ev, deliver ev w = Some (tt, w)).
  { destruct w as [[rec reg var err oper upd] objs conts infl calls].
    simpl in *. subst.
    destruct Hf as [[msg ->]| ->]; by intros [|?|?|?]. }
  repeat split; try done.
  - intros evs'. induction evs' as [|ev evs' IH]; [done|].
    simpl. unfold bind. by rewrite Hd.
  - intros operation.
    destruct w as [[rec reg var err oper upd] objs conts infl calls].
    simpl in *. subst. by destruct Hf as [[msg ->]| ->].
Qed.

Lemma failed_recovery_is_terminal_witness :
  exists w,
    run [EvRecover; EvApply (admit_at 1 pv1); EvFetched (Failed "io")] initial
    = Some (tt, w) /\
    (forall evs', run evs' w = Some (tt, w)) /\
    (forall operation, apply operation w = Some (Failure "io", w)).
Proof.
  eexists. split; [reflexivity|].
  destruct (failed_recovery_is_terminal
              [EvRecover; EvApply (admit_at 1 pv1); EvFetched (Failed "io")]
              _ (Failed "io") eq_refl eq_refl)
    as (H1 & H2 & _).
  - left. by exists "io"%string.
  - split; [exact H1 | exact H2].
Defined.

(** X8. The recorded error is final in every run: once [error] is set,
    every later event leaves the actor as it is (no store call, no change
    of the registry, of the handle or of the queue) and every later
    [apply] is answered with that error. *)
Theorem error_is_terminal (evs : list Event) (w : World) (e : string) :
  run evs initial = Some (tt, w) ->
  error (process w) = Some e ->
  (forall evs', run evs' w = Some (tt, w)) /\
  (forall operation, apply operation w = Some (Failure e, w)).
Proof.
  intros Hrun Herr. apply reachable_Inv in Hrun. split.
  - intros evs'. by apply (failed_stays_failed _ _ w e evs' Hrun).
  - by destruct (failed_is_frozen _ _ w e Hrun Herr).
Qed.

Lemma error_is_terminal_witness :
  exists w,
    run [EvRecover; EvFetched (Ready (handle 0 empty_registry));
         EvApply (admit_at 1 pv1); EvStored Discarded] initial
    = Some (tt, w) /\
    (forall evs', run evs' w = Some (tt, w)) /\
    (forall operation,
        apply operation w
        = Some (Failure "Failed to update registry: discarded", w)).
Proof.
  eexists. split; [vm_compute; reflexivity|].
  apply (error_is_terminal
           [EvRecover; EvFetched (Ready (handle 0 empty_registry));
            EvApply (admit_at 1 pv1); EvStored Discarded]).
  - vm_compute. reflexivity.
  - reflexivity.
Defined.

(** X9. The discipline of the store calls in every run: while a store is
    in flight the actor is recovered, updating and free of error, the
    snapshot being stored is the registry it holds with the batch
    performed on it, and the call was made on the handle it holds; when
    no store is in flight the actor is not updating, and unless the error
    is set its queue is empty, so no accepted operation waits without a
    store in flight. *)
Theorem store_discipline (evs : list Event) (w : World) :
  run evs initial = Some (tt, w) ->
  (forall reg applied,
      in_flight w = Some (reg, applied) ->
      recovered (process w) = Some (Ready tt) /\
      updating (process w) = true /\
      error (process w) = None /\
      exists r v,
        registry (process w) = Some r /\ variable (process w) = Some v /\
        reg = batch r applied /\
        last (store_calls w) = Some (mutate v reg)) /\
  (in_flight w = None ->
   updating (process w) = false /\
   (error (process w) = None -> operations (process w) = [])).
Proof.
  intros Hrun. apply reachable_Inv in Hrun. revert Hrun.
  generalize (submissions false evs). intros S HI.
  destruct w as [[rec reg0 var err oper upd] objs conts infl calls].
  unfold Inv, quiet in HI. simpl in *. split.
  - intros reg applied ->.
    destruct rec as [[|[]|msg|]|]; try (exfalso; clear -HI; naive_solver).
    destruct HI as (_ & r & v & -> & -> & HI).
    destruct err as [e|]; [by destruct HI|].
    destruct HI as (-> & -> & Hlast & _). eauto 10.
  - intros ->.
    destruct rec as [[|[]|msg|]|]; try (clear -HI; naive_solver).
    destruct HI as (_ & r & v & -> & -> & HI).
    destruct err as [e|]; naive_solver.
Qed.

Lemma store_discipline_witness :
  exists w,
    run [EvRecover; EvFetched (Ready (handle 0 empty_registry));
         EvApply (admit_at 1 pv1); EvApply (admit_at 2 pv2)] initial
    = Some (tt, w) /\
    in_flight w = Some (registry_pv1, [admit_at 1 pv1]) /\
    updating (process w) = true /\
    last (store_calls w) = Some (mutate (handle 0 empty_registry) registry_pv1).
Proof.
  eexists. split; [vm_compute; reflexivity|].
  split; [reflexivity|].
  match goal with |- updating (process ?W) = _ /\ _ =>
    destruct (store_discipline
                [EvRecover; EvFetched (Ready (handle 0 empty_registry));
                 EvApply (admit_at 1 pv1); EvApply (admit_at 2 pv2)] W)
      as [Hfl _]; [vm_compute; reflexivity|];
    destruct (Hfl registry_pv1 [admit_at 1 pv1] eq_refl)
      as (_ & Hupd & _ & _) end.
  split; [exact Hupd | reflexivity].
Defined.

(** ** Operations submitted while recovery is pending *)

Lemma run_chained (l : list Operation) (w : World) :
  recovered (process w) = Some Pending ->
  run (EvApply <$> l) w
  = Some (tt, with_continuations (continuations w ++ l) w).
Proof.
  revert w. induction l as [|op l IH]; intros w Hrec.
  - simpl. unfold ret. rewrite app_nil_r. by destruct w.
  - cbn [fmap list_fmap run]. unfold bind at 1.
    assert (Hd : deliver (EvApply op) w
                 = Some (tt, with_continuations (continuations w ++ [op]) w)).
    { destruct w as [[rec reg var err oper upd] objs conts infl calls].
      simpl in *. by subst. }
    rewrite Hd, IH by (by destruct w as [[]]).
    destruct w. unfold with_continuations. simpl. by rewrite <- app_assoc.
Qed.

(** X10. Operations submitted between the invocation of [recover] and the
    completion of the fetch are kept in submission order and released
    when the fetch completes: the first alone forms the batch whose store
    is issued at once, on the recovered handle, and the others wait in
    the queue, in order, for the next batch. *)
Theorem chained_applies_released_in_order (v : Variable_Registry)
  (op : Operation) (ops : list Operation) :
  exists w,
    run (EvRecover :: (EvApply <$> op :: ops) ++ [EvFetched (Ready v)])
      initial
    = Some (tt, w) /\
    recovered (process w) = Some (Ready tt) /\
    registry (process w) = Some (get v) /\
    variable (process w) = Some v /\
    error (process w) = None /\
    in_flight w = Some (batch (get v) [op], [op]) /\
    operations (process w) = ops /\
    store_calls w = [mutate v (batch (get v) [op])].
Proof.
  change (EvRecover :: (EvApply <$> op :: ops) ++ [EvFetched (Ready v)])
    with ([EvRecover] ++ (EvApply <$> op :: ops) ++ [EvFetched (Ready v)]).
  rewrite run_app.
  change (run [EvRecover] initial)
    with (Some (tt, with_process (set_recovered (Some Pending)) initial)).
  cbv beta iota. rewrite run_app, run_chained by done.
  cbn [run]. unfold bind at 1.
  unfold deliver, fetched, bind, read, write.
  cbn -[run_continuations _apply batch]. cbn [run_continuations].
  unfold bind at 1.
  match goal with |- context [_apply ?o ?W] =>
    destruct (_apply_idle o W (get v) v) as (objs' & ->); try done end.
  rewrite run_continuations_updating by done.
  eexists. split; [reflexivity|]. simpl. repeat split; done.
Qed.

(** ** What each handler can do to an arbitrary world *)

Lemma update_cases (w w' : World) :
  update w = Some (tt, w') ->
  w' = w \/
  exists r v objs',
    registry (process w) = Some r /\ variable (process w) = Some v /\
    w' = {| process := set_operations [] (set_updating true (process w));
            objects := objs';
            continuations := continuations w;
            in_flight := Some (batch r (operations (process w)),
                               operations (process w));
            store_calls :=
              store_calls w
                ++ [mutate v (batch r (operations (process w)))] |} /\
    forall a, promise (object objs' a) = promise (object (objects w) a).
Proof.
  destruct w as [[rec reg var err oper upd] objs conts infl calls].
  unfold update, bind, read, write, CHECK, CHECK_NONE, CHECK_SOME,
    state_store, ret.
  cbn -[foreach_operation batch].
  destruct upd; [discriminate|]. destruct err; [discriminate|].
  cbn -[foreach_operation batch].
  destruct oper as [|op ops].
  { intros H. injection H as <-. by left. }
  cbn -[foreach_operation batch].
  destruct reg as [r|]; [|discriminate].
  match goal with |- context [foreach_operation ?l ?r ?W] =>
    destruct (foreach_operation_spec l r W)
      as (objs' & -> & Hprom & _) end.
  cbn -[batch]. destruct var as [v|]; [|discriminate].
  intros H. injection H as <-. right. exists r, v, objs'. done.
Qed.

Lemma stored_cases (store : Future (option Variable_Registry)) (w w' : World) :
  stored store w = Some (tt, w') ->
  w' = w \/
  (exists reg applied message objs',
      in_flight w = Some (reg, applied) /\
      w' = {| process := set_error (Some message)
                           (set_updating false (process w));
              objects := objs';
              continuations := continuations w;
              in_flight := None;
              store_calls := store_calls w |} /\
      forall a,
        object objs' a
        = if decide (a ∈ address <$> applied)
          then {| success := success (object (objects w) a);
                  promise := Promise_fail (promise (object (objects w) a))
                               message |}
          else object (objects w) a) \/
  (exists reg applied v' objs' wmid,
      in_flight w = Some (reg, applied) /\
      wmid = {| process := set_registry (Some reg)
                             (set_variable (Some v')
                                (set_updating false (process w)));
                objects := objs';
                continuations := continuations w;
                in_flight := None;
                store_calls := store_calls w |} /\
      (forall a,
          object objs' a
          = if decide (a ∈ address <$> applied)
            then {| success := success (object (objects w) a);
                    promise := Promise_set (promise (object (objects w) a))
                                 (success (object (objects w) a)) |}
            else object (objects w) a) /\
      (w' = wmid \/ update wmid = Some (tt, w'))).
Proof.
  destruct (in_flight w) as [[reg applied]|] eqn:Hfl.
  2:{ rewrite stored_idle by done. intros H. injection H as <-. by left. }
  destruct store as [|[v'|]|failure|].
  - rewrite stored_pending. intros H. injection H as <-. by left.
  - intros H. right. right.
    destruct w as [[rec r var err oper upd] objs conts infl calls].
    simpl in Hfl. subst infl. revert H. callback.
    match goal with |- context [set_all ?l ?W] =>
      destruct (set_all_spec l W) as (objs' & -> & Hobj) end.
    simpl in Hobj. cbn -[update]. intros H.
    eexists reg, applied, v', objs', _. split; [done|].
    split; [reflexivity|]. split; [done|].
    destruct oper as [|op ops].
    + left. by injection H as <-.
    + right. exact H.
  - intros H. right. left.
    destruct (stored_failure w reg applied (Ready None) _ Hfl eq_refl)
      as (objs' & Hrun & Hobj).
    rewrite Hrun in H. injection H as <-. eauto 10.
  - intros H. right. left.
    destruct (stored_failure w reg applied (Failed failure) _ Hfl eq_refl)
      as (objs' & Hrun & Hobj).
    rewrite Hrun in H. injection H as <-. eauto 10.
  - intros H. right. left.
    destruct (stored_failure w reg applied Discarded _ Hfl eq_refl)
      as (objs' & Hrun & Hobj).
    rewrite Hrun in H. injection H as <-. eauto 10.
Qed.

Lemma _apply_cases (operation : Operation) (w w' : World) (f : ApplyFuture) :
  _apply operation w = Some (f, w') ->
  w' = w \/
  w' = with_process
         (set_operations (operations (process w) ++ [operation])) w \/
  update (with_process
            (set_operations (operations (process w) ++ [operation])) w)
  = Some (tt, w').
Proof.
  destruct w as [[rec reg var err oper upd] objs conts infl calls].
  unfold _apply, bind, read, write, ret. cbn -[update].
  destruct err as [e|].
  { intros H. injection H as <- <-. by left. }
  cbn -[update]. destruct upd.
  { intros H. injection H as <- <-. right. by left. }
  destruct (update _) as [[[] w1]|] eqn:Hup; [|discriminate].
  intros H. injection H as <- <-. right. right. done.
Qed.

(** A property of worlds that every handler keeps is kept by every run. *)
Section Preservation.
Context (P : World -> Prop) (ok : Event -> Prop).
Hypothesis P_update : forall w w', P w -> update w = Some (tt, w') -> P w'.
Hypothesis P_process :
  forall w f,
    registry (f (process w)) = registry (process w) ->
    P w -> P (with_process f w).
Hypothesis P_continuations :
  forall w l, P w -> P (with_continuations l w).
Hypothesis P_stored :
  forall w w' store, P w -> stored store w = Some (tt, w') -> P w'.
Hypothesis P_fetched :
  forall w v,
    ok (EvFetched (Ready v)) -> P w ->
    P (with_process (set_registry (Some (get v))) w).

Lemma _apply_preserves (operation : Operation) (w w' : World)
  (f : ApplyFuture) :
  P w -> _apply operation w = Some (f, w') -> P w'.
Proof.
  intros HP H. apply _apply_cases in H as [->|[->|H]]; [done| |].
  - by apply P_process.
  - eapply P_update; [|exact H]. by apply P_process.
Qed.

Lemma run_continuations_preserves (l : list Operation) (w w' : World) :
  P w -> run_continuations l w = Some (tt, w') -> P w'.
Proof.
  revert w. induction l as [|op l IH]; intros w HP H.
  - by injection H as <-.
  - cbn [run_continuations] in H. unfold bind at 1 in H.
    destruct (_apply op w) as [[f w1]|] eqn:Hap; [|done].
    apply (IH w1); [|done]. by apply (_apply_preserves op w w1 f).
Qed.

Lemma deliver_preserves (ev : Event) (w w' : World) :
  ok ev -> P w -> deliver ev w = Some (tt, w') -> P w'.
Proof.
  intros Hok HP H. destruct ev as [|recovery|operation|store].
  - destruct w as [[rec reg var err oper upd] objs conts infl calls].
    destruct rec as [f|]; simpl in H; injection H as <-; [done|].
    by apply (P_process _ (set_recovered (Some Pending))).
  - destruct w as [[rec reg var err oper upd] objs conts infl calls].
    unfold deliver, fetched, bind, read, write, ret in H.
    cbn -[run_continuations] in H.
    destruct rec as [[|[]|msg|]|]; try (by injection H as <-).
    destruct recovery as [|v|msg|]; try (injection H as <-).
    + done.
    + cbn -[run_continuations] in H.
      eapply run_continuations_preserves; [|exact H].
      apply (P_continuations _ []).
      apply (P_process _ (set_recovered (Some (Ready tt)))); [done|].
      apply (P_process
               (with_process (set_registry (Some (get v))) _)
               (set_variable (Some v))); [done|].
      by apply P_fetched.
    + apply (P_continuations _ []).
      by apply (P_process _ (set_recovered (Some (Failed msg)))).
    + apply (P_continuations _ []).
      by apply (P_process _ (set_recovered (Some Discarded))).
  - simpl in H. unfold bind at 1 in H.
    destruct (apply operation w) as [[f w1]|] eqn:Hap; [|done].
    injection H as <-.
    destruct w as [[rec reg var err oper upd] objs conts infl calls].
    unfold apply, bind, read, ret in Hap. cbn -[_apply] in Hap.
    destruct rec as [[|[]|msg|]|]; try (by injection Hap as <- <-).
    + injection Hap as <- <-. by apply (P_continuations _ (conts ++ [_])).
    + by apply (_apply_preserves operation _ _ f HP Hap).
  - by apply (P_stored w w' store).
Qed.

Lemma run_preserves (evs : list Event) (w w' : World) :
  Forall ok evs -> P w -> run evs w = Some (tt, w') -> P w'.
Proof.
  intros Hok. revert w. induction Hok as [|ev evs Hev _ IH]; intros w HP H.
  - by injection H as <-.
  - cbn [run] in H. unfold bind at 1 in H.
    destruct (deliver ev w) as [[[] w1]|] eqn:Hd; [|done].
    apply (IH w1); [|done]. by apply (deliver_preserves ev w w1).
Qed.

End Preservation.

(** ** Completed promises stay as they are *)

Lemma stable_refl (w : World) : stable w w.
Proof. by intros a _. Qed.

Lemma stable_trans (w1 w2 w3 : World) :
  stable w1 w2 -> stable w2 w3 -> stable w1 w3.
Proof.
  intros H12 H23 a Ha. rewrite H23; rewrite (H12 a Ha); done.
Qed.

Lemma stable_same_objects (w w' : World) :
  objects w' = objects w -> stable w w'.
Proof. intros Heq a _. by rewrite Heq. Qed.

Lemma update_stable (w w' : World) :
  update w = Some (tt, w') -> stable w w'.
Proof.
  intros H. pose proof (update_cases w w' H) as Hc. clear H.
  destruct Hc as [->|(r & v & objs' & _ & _ & -> & Hp)].
  - apply stable_refl.
  - intros a _. simpl. apply Hp.
Qed.

Lemma stored_stable (store : Future (option Variable_Registry))
  (w w' : World) :
  stored store w = Some (tt, w') -> stable w w'.
Proof.
  intros H0. pose proof (stored_cases store w w' H0) as Hc. clear H0.
  destruct Hc
    as [->|[(reg & applied & m & objs' & _ & -> & Hobj)
           |(reg & applied & v' & objs' & wmid & _ & Hmid & Hobj & H)]].
  - apply stable_refl.
  - intros a Ha. simpl. rewrite Hobj. destruct (decide _); [|done].
    simpl. by destruct (promise (object (objects w) a)).
  - assert (Hs : stable w wmid).
    { intros a Ha. subst wmid. simpl. rewrite Hobj.
      destruct (decide _); [|done].
      simpl. by destruct (promise (object (objects w) a)). }
    destruct H as [->|H]; [done|].
    eapply stable_trans; [exact Hs|]. by apply update_stable.
Qed.

Lemma run_stable (evs : list Event) (w w' : World) :
  run evs w = Some (tt, w') -> stable w w'.
Proof.
  intros H.
  refine (run_preserves (stable w) (fun _ => True) _ _ _ _ _ evs w w' _ _ H).
  - intros w1 w2 Hs Hup. eapply stable_trans; [exact Hs|].
    by apply update_stable.
  - intros w1 f Heq Hs. eapply stable_trans; [exact Hs|].
    by apply stable_same_objects.
  - intros w1 l Hs. eapply stable_trans; [exact Hs|].
    by apply stable_same_objects.
  - intros w1 w2 store Hs Hst. eapply stable_trans; [exact Hs|].
    by apply (stored_stable store).
  - intros w1 v Hv Hs. eapply stable_trans; [exact Hs|].
    by apply stable_same_objects.
  - by apply Forall_forall.
  - apply stable_refl.
Qed.

(** X11. A future is completed once: whatever events follow, a promise
    that has been set or failed keeps its value.  This holds from every
    world, in particular for an operation whose promise was completed
    before it was submitted, and along every run of the actor. *)
Theorem completed_future_never_changes :
  (forall evs w w' operation,
      run evs w = Some (tt, w') ->
      future_of w operation ≠ Pending ->
      future_of w' operation = future_of w operation) /\
  (forall evs1 evs2,
      exists w w',
        run evs1 initial = Some (tt, w) /\
        run evs2 w = Some (tt, w') /\
        forall operation,
          future_of w operation ≠ Pending ->
          future_of w' operation = future_of w operation).
Proof.
  split.
  - intros evs w w' operation Hrun Hdone.
    by apply (run_stable evs w w' Hrun).
  - intros evs1 evs2. destruct (run_total (evs1 ++ evs2)) as (w' & Hrun).
    rewrite run_app in Hrun.
    destruct (run evs1 initial) as [[[] w]|] eqn:H1; [|done].
    exists w, w'. repeat split; [done|].
    intros operation Hdone. by apply (run_stable evs2 w w' Hrun).
Qed.

Lemma completed_future_never_changes_witness :
  let first := admit_at 1 pv1 in
  exists w w',
    run [EvRecover; EvFetched (Ready (handle 0 empty_registry));
         EvApply first; EvStored (Ready (Some (handle 1 registry_pv1)))]
      initial
    = Some (tt, w) /\
    run [EvApply first; EvStored (Ready None)] w = Some (tt, w') /\
    future_of w first = Ready true /\
    future_of w' first = future_of w first.
Proof.
  intros first. eexists _, _.
  split; [vm_compute; reflexivity|]. split; [vm_compute; reflexivity|].
  split; [vm_compute; reflexivity|].
  apply (proj1 completed_future_never_changes
           [EvApply first; EvStored (Ready None)]).
  - vm_compute. reflexivity.
  - vm_compute. discriminate.
Defined.

(** ** No registry with duplicate identities *)

Lemma batch_NoDup (r : Registry) (ops : list Operation) :
  NoDup (ids r) -> NoDup (ids (batch r ops)).
Proof.
  revert r. induction ops as [|op ops IH]; intros r Hnd; [done|].
  apply (IH (snd (perform (kind op) r))). by apply perform_NoDup.
Qed.

Lemma update_duplicate_free (w w' : World) :
  duplicate_free w -> update w = Some (tt, w') -> duplicate_free w'.
Proof.
  intros (Hreg & Hfl & Hcalls) H.
  pose proof (update_cases w w' H) as Hc. clear H.
  destruct Hc as [->|(r & v & objs' & Hr & Hv & -> & _)]; [done|].
  destruct w as [[rec reg var err oper upd] objs conts infl calls].
  simpl in *. subst. repeat split; simpl.
  - done.
  - intros reg' applied' H. injection H as <- <-.
    apply batch_NoDup. by apply Hreg.
  - apply Forall_app. split; [done|]. apply Forall_singleton. simpl.
    apply batch_NoDup. by apply Hreg.
Qed.

Lemma stored_duplicate_free (store : Future (option Variable_Registry))
  (w w' : World) :
  duplicate_free w -> stored store w = Some (tt, w') -> duplicate_free w'.
Proof.
  intros HP H0. pose proof (stored_cases store w w' H0) as Hc. clear H0.
  destruct Hc
    as [->|[(reg & applied & m & objs' & Hfl & -> & _)
           |(reg & applied & v' & objs' & wmid & Hfl & Hmid & _ & H)]].
  - done.
  - destruct HP as (Hreg & _ & Hcalls).
    destruct w as [[]]. by repeat split.
  - assert (duplicate_free wmid).
    { destruct HP as (Hreg & Hin & Hcalls). subst wmid.
      destruct w as [[]]. simpl in *. repeat split; simpl; [|done..].
      intros r Hr. injection Hr as <-. by apply (Hin reg applied). }
    destruct H as [->|H]; [done|]. by apply (update_duplicate_free wmid).
Qed.

Lemma run_duplicate_free (evs : list Event) (w w' : World) :
  Forall (fetches (fun r => NoDup (ids r))) evs ->
  duplicate_free w -> run evs w = Some (tt, w') -> duplicate_free w'.
Proof.
  intros Hok HP H.
  refine (run_preserves duplicate_free (fetches (fun r => NoDup (ids r)))
            _ _ _ _ _ evs w w' Hok HP H).
  - apply update_duplicate_free.
  - intros [[]] f Heq (Hreg & Hin & Hcalls). simpl in *.
    repeat split; simpl; try done. by rewrite Heq.
  - intros [[]] l (Hreg & Hin & Hcalls). by repeat split.
  - intros w1 w2 store. apply stored_duplicate_free.
  - intros [[]] v Hv (Hreg & Hin & Hcalls). simpl in *.
    repeat split; simpl; try done. intros r Hr. by injection Hr as <-.
Qed.

(** X12. The uniqueness of identities is an invariant of the actor: as
    long as every registry delivered by a fetch is free of duplicate
    identities, so is every registry the actor holds, every snapshot it
    is storing and every snapshot it has ever handed to the store, in
    every state including the failed one. *)
Theorem actor_keeps_identities_unique :
  (forall evs w w',
      Forall (fetches (fun r => NoDup (ids r))) evs ->
      duplicate_free w ->
      run evs w = Some (tt, w') ->
      duplicate_free w') /\
  (forall evs,
      Forall (fetches (fun r => NoDup (ids r))) evs ->
      exists w, run evs initial = Some (tt, w) /\ duplicate_free w).
Proof.
  split.
  - apply run_duplicate_free.
  - intros evs Hok. destruct (run_total evs) as (w & Hrun).
    exists w. split; [done|].
    apply (run_duplicate_free evs initial w Hok); [|done].
    repeat split; simpl; [done | done | constructor].
Qed.

Lemma actor_keeps_identities_unique_witness :
  exists w,
    run [EvRecover; EvFetched (Ready (handle 0 registry_pv1));
         EvApply (admit_at 1 pv1); EvApply (admit_at 2 pv2);
         EvStored (Ready (Some (handle 1 registry_pv1)));
         EvStored Discarded] initial
    = Some (tt, w) /\
    duplicate_free w.
Proof.
  apply (proj2 actor_keeps_identities_unique).
  apply Forall_cons. split; [exact I|].
  apply Forall_cons. split; [apply NoDup_singleton|].
  repeat constructor.
Defined.

(** ** Operations submitted back to back *)

(** A successful store with operations waiting: the batch is signalled,
    and the waiting operations form the next batch at once. *)
Lemma stored_success_next_batch (w : World) (reg : Registry)
  (applied : list Operation) (v' : Variable_Registry)
  (q : Operation) (qs : list Operation) :
  in_flight w = Some (reg, applied) ->
  error (process w) = None ->
  operations (process w) = q :: qs ->
  exists objs' objs'',
    (forall a,
        object objs' a
        = if decide (a ∈ address <$> applied)
          then {| success := success (object (objects w) a);
                  promise := Promise_set (promise (object (objects w) a))
                               (success (object (objects w) a)) |}
          else object (objects w) a) /\
    (forall a, promise (object objs'' a) = promise (object objs' a)) /\
    (forall l1 o l2,
        q :: qs = l1 ++ o :: l2 ->
        address o ∉ address <$> l2 ->
        success (object objs'' (address o))
        = negb (isError (fst (perform (kind o) (batch reg l1))))) /\
    stored (Ready (Some v')) w
    = Some (tt,
            {| process :=
                 set_operations []
                   (set_updating true
                      (set_registry (Some reg)
                         (set_variable (Some v')
                            (set_updating false (process w)))));
               objects := objs'';
               continuations := continuations w;
               in_flight := Some (batch reg (q :: qs), q :: qs);
               store_calls :=
                 store_calls w ++ [mutate v' (batch reg (q :: qs))] |}).
Proof.
  destruct w as [[rec r var err oper upd] objs conts infl calls].
  simpl. intros -> -> ->. callback.
  match goal with |- context [set_all ?l ?W] =>
    destruct (set_all_spec l W) as (objs' & -> & Hobj) end.
  simpl in Hobj. cbn -[update batch].
  match goal with |- context [update ?W] =>
    destruct (update_spec W reg v' q qs)
      as (objs'' & Hrun & Hprom & _ & Hflag); try done end.
  rewrite Hrun. exists objs', objs''. simpl in *. repeat split; done.
Qed.

(** X13. Operations submitted back to back to the idle actor are all
    committed, in two store calls: the first operation alone forms the
    first batch, the others, which arrive while its store is in flight,
    form the second, which is stored on the handle the first store
    returned.  When both stores succeed the actor holds the registry
    obtained by performing all the operations in submission order, it is
    idle again, and the future of every operation is resolved to the
    outcome of its own [perform] in that order. *)
Theorem back_to_back_submissions (w : World) (r : Registry)
  (v v1 v2 : Variable_Registry) (op : Operation) (arrivals : list Operation) :
  recovered (process w) = Some (Ready tt) ->
  updating (process w) = false ->
  error (process w) = None ->
  registry (process w) = Some r ->
  variable (process w) = Some v ->
  operations (process w) = [] ->
  arrivals ≠ [] ->
  NoDup (address <$> op :: arrivals) ->
  (forall o, o ∈ op :: arrivals -> future_of w o = Pending) ->
  exists w',
    run (EvApply op :: (EvApply <$> arrivals)
           ++ [EvStored (Ready (Some v1)); EvStored (Ready (Some v2))]) w
    = Some (tt, w') /\
    registry (process w') = Some (batch r (op :: arrivals)) /\
    variable (process w') = Some v2 /\
    store_calls w'
    = store_calls w
        ++ [mutate v (batch r [op]); mutate v1 (batch r (op :: arrivals))] /\
    in_flight w' = None /\
    operations (process w') = [] /\
    updating (process w') = false /\
    error (process w') = None /\
    forall l1 o l2,
      op :: arrivals = l1 ++ o :: l2 ->
      future_of w' o
      = Ready (negb (isError (fst (perform (kind o) (batch r l1))))).
Proof.
  intros Hrec Hupd Herr Hreg Hvar Hops Hne Hnd Hpending.
  destruct arrivals as [|q qs]; [done|]. clear Hne.
  rewrite fmap_cons in Hnd. apply NoDup_cons in Hnd as [Hop Hnd].
  (* the first operation forms the first batch *)
  set (w0 := with_process (set_operations [op]) w).
  assert (Hd : deliver (EvApply op) w
               = match update w0 with
                 | Some (_, w1) => Some (tt, w1)
                 | None => None
                 end).
  { subst w0. destruct w as [[rec reg var err oper upd] objs conts infl calls].
    simpl in *. subst. reflexivity. }
  destruct (update_spec w0 r v op [])
    as (objs1 & Hrun1 & Hprom1 & Hout1 & Hflag1);
    try (subst w0; destruct w as [[]]; simpl in *; by subst).
  match type of Hrun1 with _ = Some (tt, ?W) => set (w1 := W) in * end.
  (* the others arrive while its store is in flight *)
  assert (Hrun2 : run (EvApply <$> q :: qs) w1
                  = Some (tt, with_process (set_operations (q :: qs)) w1)).
  { rewrite run_arrivals;
      try (subst w1 w0; destruct w as [[]]; simpl in *; by subst). }
  set (w2 := with_process (set_operations (q :: qs)) w1) in *.
  (* the first store succeeds: the second batch is formed *)
  destruct (stored_success_next_batch w2 (batch r [op]) [op] v1 q qs)
    as (objs2 & objs3 & Hobj2 & Hprom3 & Hflag3 & Hrun3);
    try (subst w2 w1 w0; destruct w as [[]]; simpl in *; by subst).
  match type of Hrun3 with _ = Some (tt, ?W) => set (w3 := W) in * end.
  (* the second store succeeds *)
  destruct (stored_success w3 (batch (batch r [op]) (q :: qs)) (q :: qs) v2)
    as (w4 & Hrun4 & _ & Hreg4 & Hvar4 & Herr4 & Hops4 & _ & Hprom4 & Hq4).
  { reflexivity. }
  { exact Herr. }
  change (operations (process w3)) with (@nil Operation) in Hq4.
  destruct Hq4 as (Hupd4 & Hfl4 & Hcalls4).
  exists w4. split.
  { cbn [run]. unfold bind at 1. rewrite Hd, Hrun1.
    rewrite run_app, Hrun2.
    cbn [run]. unfold bind at 1.
    change (deliver (EvStored (Ready (Some v1))) w2)
      with (stored (Ready (Some v1)) w2).
    rewrite Hrun3. unfold bind at 1.
    change (deliver (EvStored (Ready (Some v2))) w3)
      with (stored (Ready (Some v2)) w3).
    by rewrite Hrun4. }
  split; [done|]. split; [done|].
  split.
  { rewrite Hcalls4. subst w3 w2 w1 w0. destruct w as [[]]. simpl.
    by rewrite <- app_assoc. }
  repeat split; try done.
  intros l1 o l2 Hl. unfold future_of. rewrite Hprom4.
  destruct l1 as [|op' l1]; simpl in Hl; injection Hl as <- Hl.
  - (* the first operation *)
    rewrite decide_False by done.
    change (objects w3) with objs3. rewrite Hprom3, Hobj2.
    rewrite decide_True by (simpl; left).
    change (objects w2) with objs1. simpl.
    rewrite Hprom1, (Hflag1 [] op [] eq_refl) by apply not_elem_of_nil.
    specialize (Hpending op). unfold future_of in Hpending.
    change (objects w0) with (objects w).
    rewrite Hpending by left. done.
  - (* an operation of the second batch *)
    assert (Hin : address o ∈ address <$> q :: qs).
    { rewrite Hl, fmap_app, fmap_cons. apply elem_of_app. right. left. }
    rewrite decide_True by done.
    change (objects w3) with objs3. rewrite Hprom3, Hobj2.
    assert (Hne : address o ≠ address op) by (intros Heq; by rewrite Heq in Hin).
    rewrite decide_False
      by (simpl; rewrite list_elem_of_singleton; done).
    change (objects w2) with objs1.
    rewrite Hprom1. change (objects w0) with (objects w).
    specialize (Hpending o). unfold future_of in Hpending.
    rewrite Hpending.
    2:{ right. rewrite Hl. apply elem_of_app. right. left. }
    simpl. f_equal. rewrite (Hflag3 l1 o l2 Hl); [done|].
    rewrite Hl, fmap_app, fmap_cons in Hnd.
    apply NoDup_app in Hnd as (_ & _ & Hnd).
    by apply NoDup_cons in Hnd as [Hnd _].
Qed.

Lemma back_to_back_submissions_witness :
  let w := recovered_world (handle 0 empty_registry) [] in
  let op := admit_at 1 pv1 in
  let arrivals := [admit_at 2 pv2; admit_at 3 pv1] in
  exists w',
    run (EvApply op :: (EvApply <$> arrivals)
           ++ [EvStored (Ready (Some (handle 1 empty_registry)));
               EvStored (Ready (Some (handle 2 empty_registry)))]) w
    = Some (tt, w') /\
    registry (process w') = Some (batch empty_registry (op :: arrivals)) /\
    variable (process w') = Some (handle 2 empty_registry) /\
    store_calls w'
    = store_calls w
        ++ [mutate (handle 0 empty_registry) (batch empty_registry [op]);
            mutate (handle 1 empty_registry)
              (batch empty_registry (op :: arrivals))] /\
    in_flight w' = None /\
    operations (process w') = [] /\
    updating (process w') = false /\
    error (process w') = None /\
    forall l1 o l2,
      op :: arrivals = l1 ++ o :: l2 ->
      future_of w' o
      = Ready (negb (isError (fst (perform (kind o)
                                     (batch empty_registry l1))))).
Proof.
  intros w op arrivals.
  apply (back_to_back_submissions w empty_registry (handle 0 empty_registry)
           (handle 1 empty_registry) (handle 2 empty_registry) op arrivals);
    try reflexivity.
  - discriminate.
  - apply (bool_decide_unpack _). vm_compute. exact I.
Defined.

(** ** The assertions of the actor *)

(** X14. No sequence of calls and completions makes one of the [CHECK]s
    of [update] fail: whenever [update] runs, the actor is not already
    updating, has no error recorded, and holds a registry and a handle.
    Every run from the initial state goes through, and the state it
    reaches satisfies the checks again whenever a batch could start. *)
Theorem checks_never_fail (evs : list Event) :
  exists w,
    run evs initial = Some (tt, w) /\
    (recovered (process w) = Some (Ready tt) ->
     is_Some (registry (process w)) /\ is_Some (variable (process w))) /\
    (operations (process w) ≠ [] ->
     is_Some (error (process w)) \/ updating (process w) = true).
Proof.
  destruct (run_total evs) as (w & Hrun). exists w. split; [done|].
  apply reachable_Inv in Hrun. revert Hrun.
  generalize (submissions false evs). intros S HI.
  destruct w as [[rec reg var err oper upd] objs conts infl calls].
  unfold Inv, quiet in HI. simpl in *. split.
  - intros ->. destruct HI as (_ & r & v & -> & -> & _). eauto.
  - intros Hq.
    destruct rec as [[|[]|msg|]|]; try (exfalso; clear -HI Hq; naive_solver).
    destruct HI as (_ & r & v & _ & _ & HI).
    destruct err as [e|]; [left; eauto|]. right.
    destruct infl as [[reg' applied]|]; naive_solver.
Qed.
